(** * zhihu-download: the batch pipeline of pages_to_urls.py and batch_download.py

    A shallow embedding of the two scripts and the properties of their
    URL extraction, identifier extraction, idempotency check and result
    aggregation. *)

From Stdlib Require Import String Ascii.
From stdpp Require Import gmap list sorting.

Set Warnings "-clear-no-such-hyp".


(** ** Python strings

    A Python [str] is a sequence of Unicode code points; it is modelled as a
    list of code points, so that [str.strip] sees the whitespace Python
    sees. *)

Abbreviation str := (list N).

Fixpoint lit (s : string) : str :=
  match s with
  | EmptyString => []
  | String a s' => N_of_ascii a :: lit s'
  end.
Arguments lit _%_string.

(** [str.isspace] on one code point: the characters [str.strip()] removes. *)
Definition whitespace : list N :=
  [9; 10; 11; 12; 13; 28; 29; 30; 31; 32; 133; 160; 5760;
   8192; 8193; 8194; 8195; 8196; 8197; 8198; 8199; 8200; 8201; 8202;
   8232; 8233; 8239; 8287; 12288]%N.

Definition isspace (c : N) : bool := existsb (N.eqb c) whitespace.

Fixpoint lstrip (s : str) : str :=
  match s with
  | [] => []
  | c :: s' => if isspace c then lstrip s' else s
  end.

Definition rstrip (s : str) : str := rev (lstrip (rev s)).

(** [s.strip()] *)
Definition strip (s : str) : str := rstrip (lstrip s).

(** [s.startswith(p)] *)
Fixpoint startswith (p s : str) : bool :=
  match p, s with
  | [], _ => true
  | _ :: _, [] => false
  | a :: p', b :: s' => N.eqb a b && startswith p' s'
  end.

(** [s.endswith(p)] *)
Definition endswith (p s : str) : bool := startswith (rev p) (rev s).

(** [sub in s] *)
Fixpoint contains (sub s : str) : bool :=
  startswith sub s ||
  match s with
  | [] => false
  | _ :: s' => contains sub s'
  end.

(** ** pages_to_urls.py *)

(** [normalize], lines 20-22. *)
Definition normalize (raw : str) : str :=
  let raw := strip raw in
  if startswith (lit "//") raw then lit "https:" ++ raw else raw.

(** A string is trimmed when it neither begins nor ends with whitespace. *)
Definition trimmed (t : str) : Prop :=
  (∀ c t', t = c :: t' → isspace c = false) ∧
  (∀ c t', t = t' ++ [c] → isspace c = false).

Definition blank (l : str) : Prop := Forall (λ c, isspace c = true) l.

(** ** batch_download.py: identifiers *)

(** The rest of [s] after its prefix [p], when [s] starts with [p]. *)
Fixpoint strip_prefix (p s : str) : option str :=
  match p, s with
  | [], _ => Some s
  | _ :: _, [] => None
  | a :: p', b :: s' => if N.eqb a b then strip_prefix p' s' else None
  end.

(** [s.split(sep)] scans [s] from the left: at an occurrence of [sep] the
    piece read so far ([cur], reversed) is closed and the scan goes on after
    the occurrence. Every step consumes a character of [s] when [sep] is not
    empty (Python raises ValueError for an empty separator; the separators of
    this program are constants), so a fuel above the length of [s] is never
    used up. *)
Fixpoint split_from (fuel : nat) (sep s cur : str) : list str :=
  match fuel with
  | O => [rev cur ++ s]
  | S fuel' =>
      match s with
      | [] => [rev cur]
      | c :: s' =>
          match strip_prefix sep s with
          | Some rest => rev cur :: split_from fuel' sep rest []
          | None => split_from fuel' sep s' (c :: cur)
          end
      end
  end.

Definition split (sep s : str) : list str :=
  split_from (S (length s)) sep s [].

(** [pieces[-1]] and [pieces[0]]; [split] never returns an empty list. *)
Definition final (pieces : list str) : str := List.last pieces [].
Definition first (pieces : list str) : str := List.hd [] pieces.

(** [get_article_id], lines 48-58; [None] is Python's [None]. *)
Definition get_article_id (url : str) : option str :=
  if contains (lit "zhuanlan.zhihu.com/p/") url then
    Some (first (split (lit "/") (final (split (lit "zhuanlan.zhihu.com/p/") url))))
  else if contains (lit "question") url && contains (lit "answer") url then
    Some (first (split (lit "/") (final (split (lit "answer/") url))))
  else if contains (lit "zvideo") url then
    Some (first (split (lit "/") (final (split (lit "zvideo/") url))))
  else if contains (lit "column") url then
    Some (first (split (lit "/") (final (split (lit "column/") url))))
  else None.

(** A separator has a border when a proper, non-empty suffix of it is also
    a prefix of it; occurrences of a separator without border never
    overlap. *)
Definition border_free (sep : str) : Prop :=
  ∀ a k b, sep = a ++ k → sep = k ++ b → a ≠ [] → k ≠ [] → False.

Definition border_freeb (sep : str) : bool :=
  forallb (λ n, negb (startswith (drop n sep) sep))
          (seq 1 (length sep - 1)).

(** ** batch_download.py: the outside world

    The script runs against the file system, the worker pool of
    [multiprocessing] and the parser of [main_zhihu]. None of them is part
    of the two source files: they are the fields of [Externals], over a type
    [W] of states of the outside world. Console output ([print], [tqdm]) is
    not modelled. *)

(** A raised Python exception, by its place in the class hierarchy:
    [except Exception] catches the first kind only. *)
Inductive exn :=
  | Exception (message : str)      (* an instance of [Exception]; [str(e)] *)
  | SystemExit (code : Z)          (* [sys.exit(code)] *)
  | BaseException (message : str). (* [KeyboardInterrupt] and the like *)

Inductive result (A : Type) :=
  | Returns (a : A)
  | Raises (e : exn).
Arguments Returns {A} a.
Arguments Raises {A} e.

(** What [os.walk] finds in a directory. [Dir] is a directory the walk
    enters; [File] stands for every entry the walk does not descend into:
    files, symbolic links to directories, and directories that cannot be
    listed. *)
#[warnings="-register-all"]
Inductive entry :=
  | File (name : str)
  | Dir (name : str) (entries : list entry).

Definition entry_name (e : entry) : str :=
  match e with File n => n | Dir n _ => n end.

(** The calls that start work on items, recorded as the program makes
    them. *)
Inductive call :=
  | ParserCall (cookies temp_dir output_dir : str) (* [ZhihuParser(...)] *)
  | JudgeCall (url : str)                          (* [parser.judge_type(url)] *)
  | PoolCall (urls : list str).                    (* [pool.imap_unordered] *)

Record state (W : Type) := State { world : W; calls : list call }.
Arguments State {W} world calls.
Arguments world {W} s.
Arguments calls {W} s.

(** A computation of the script: it reads and changes the state and returns
    or raises. *)
Definition M (W A : Type) : Type := state W → result A * state W.

Record Externals (W : Type) := {
  (** the directory at a path as [os.scandir] lists it, recursively;
      [None] when the path cannot be listed *)
  listing : W → str → option (list entry);
  (** [os.path.exists] and [Path.exists] *)
  path_exists : W → str → bool;
  (** [open(path, 'r', encoding='utf-8').read()]: the decoded text *)
  read_text : W → str → result str;
  (** the names matched by [URLS_DIR.glob("*.txt")], in the order the
      file system yields them *)
  glob_txt : W → list str;
  (** [os.makedirs(path, exist_ok=True)] *)
  makedirs : str → W → result unit * W;
  (** [shutil.rmtree(path)] *)
  rmtree : str → W → result unit * W;
  (** the fetch unit: [ZhihuParser(cookies=, keep_logs=, temp_dir=,
      output_dir=)] and [parser.judge_type(url)] *)
  Parser : Type;
  new_parser : str → bool → str → str → W → result Parser * W;
  parser_judge_type : Parser → str → W → result unit * W;
  (** [multiprocessing.Pool(...).imap_unordered(f, urls)], consumed to its
      end: the items the iterator yields, each a value or the exception
      that the iteration re-raises for it *)
  pool_imap_unordered :
    ∀ T, (str → M W T) → list str → M W (list (result T));
}.
Arguments listing {W} _ _ _.
Arguments path_exists {W} _ _ _.
Arguments read_text {W} _ _ _.
Arguments glob_txt {W} _ _.
Arguments makedirs {W} _ _ _.
Arguments rmtree {W} _ _ _.
Arguments Parser {W} _.
Arguments new_parser {W} _ _ _ _ _ _.
Arguments parser_judge_type {W} _ _ _ _.
Arguments pool_imap_unordered {W} _ {T} _ _ _.

(** [os.path.join(a, b)] (POSIX). *)
Definition path_join (a b : str) : str :=
  if startswith (lit "/") b then b
  else if bool_decide (a = []) || endswith (lit "/") a then a ++ b
  else a ++ lit "/" ++ b.

Definition dir_names (es : list entry) : list str :=
  flat_map (λ e, match e with Dir n _ => [n] | File _ => [] end) es.
Definition file_names (es : list entry) : list str :=
  flat_map (λ e, match e with File n => [n] | Dir _ _ => [] end) es.

(** [os.walk(top)], top-down: the triples [(root, dirs, files)] for [top]
    and every directory below it. *)
Fixpoint walk_entry (top : str) (e : entry) : list (str * list str * list str) :=
  match e with
  | File _ => []
  | Dir name es =>
      let new_path := path_join top name in
      (new_path, dir_names es, file_names es)
        :: flat_map (walk_entry new_path) es
  end.

Definition walk (top : str) (es : list entry) : list (str * list str * list str) :=
  (top, dir_names es, file_names es) :: flat_map (walk_entry top) es.

(** The loop of [article_exists], lines 62-65. *)
Fixpoint article_exists_loop (article_id : str)
    (triples : list (str * list str * list str)) : bool :=
  match triples with
  | [] => false
  | (root, dirs, files) :: rest =>
      if contains article_id root then true
      else article_exists_loop article_id rest
  end.

(** Configuration, lines 11-18. *)
Definition COOKIES_FILE : str := lit "cookies.txt".
Definition BASE_DIR : str := lit "zhihu".
Definition URLS_DIR : str := path_join BASE_DIR (lit "urls").
Definition EXTRACTED_DIR : str := path_join BASE_DIR (lit "markdown").
Definition TEMP_DIR : str := path_join BASE_DIR (lit "temp_zips").

(** [Path(name).stem]: the name without its last suffix. *)
Fixpoint rfind_dot (s : str) (i : nat) (found : option nat) : option nat :=
  match s with
  | [] => found
  | c :: s' => rfind_dot s' (S i) (if N.eqb c 46 then Some i else found)
  end.

Definition stem (name : str) : str :=
  match rfind_dot name 0 None with
  | Some i => if bool_decide (0 < i < length name - 1) then take i name else name
  | None => name
  end.

(** [str(Path(parent) / name)] for a name without slash: [pathlib] drops
    an empty component and the component [.]. *)
Definition path_child (parent name : str) : str :=
  if bool_decide (name = [] ∨ name = lit ".") then parent
  else path_join parent name.

(** The running totals of [process_urls]:
    [success_count, failure_count, skipped_count, failed_urls]. *)
Definition tally : Type := nat * nat * nat * list (str * option str).

Definition ret {W A} (a : A) : M W A := λ s, (Returns a, s).
Definition raise {W A} (e : exn) : M W A := λ s, (Raises e, s).
Definition bind {W A B} (m : M W A) (k : A → M W B) : M W B :=
  λ s, match m s with
       | (Returns a, s') => k a s'
       | (Raises e, s') => (Raises e, s')
       end.

(** [try: body except Exception as e: handler(str(e))] *)
Definition try_except_Exception {W A} (body : M W A) (handler : str → M W A)
  : M W A :=
  λ s, match body s with
       | (Raises (Exception message), s') => handler message s'
       | other => other
       end.

(** an operation of the outside world, run on the world of the state *)
Definition lift {W A} (op : W → result A * W) : M W A :=
  λ s, let '(r, w) := op (world s) in (r, State w (calls s)).
(** a look at the outside world that does not change it *)
Definition observe {W A} (op : W → result A) : M W A :=
  λ s, (op (world s), s).
Definition record {W} (c : call) : M W unit :=
  λ s, (Returns tt, State (world s) (calls s ++ [c])).
Definition sys_exit {W A} (code : Z) : M W A := raise (SystemExit code).

Declare Scope py_scope.
Delimit Scope py_scope with py.
Notation "'do' x <- m ; k" := (bind m (λ x, k))
  (at level 10, x name, m at level 100, k at level 200) : py_scope.
Notation "m ;; k" := (bind m (λ _, k))
  (at level 100, k at level 200, right associativity) : py_scope.
Open Scope py_scope.

Definition newline : str := [10%N].

Section Batch.
Context {W : Type} (ext : Externals W).

(** lines 20-24 *)
Definition setup_directories : M W unit :=
  lift (makedirs ext URLS_DIR) ;;
  lift (makedirs ext EXTRACTED_DIR) ;;
  lift (makedirs ext TEMP_DIR).

(** lines 26-28 *)
Definition get_url_files : M W (list str) :=
  observe (λ w, Returns (glob_txt ext w)).

(** lines 30-33: the file is read line by line; blank lines are dropped
    and the others trimmed. *)
Definition read_urls_from_file (file_path : str) : M W (list str) :=
  do text <- observe (λ w, read_text ext w file_path) ;
  ret (map strip (filter (λ line, strip line ≠ []) (split newline text))).

(** lines 35-46 *)
Definition read_cookies_from_file (file_path : str) : M W str :=
  do present <- observe (λ w, Returns (path_exists ext w file_path)) ;
  if negb present then sys_exit 1
  else
    do text <- observe (λ w, read_text ext w file_path) ;
    let cookies := strip text in
    if bool_decide (cookies = []) then sys_exit 1
    else ret cookies.

(** [os.walk(top)]: nothing is yielded for a path that cannot be
    listed. *)
Definition os_walk (top : str) : M W (list (str * list str * list str)) :=
  observe (λ w, Returns match listing ext w top with
                        | Some es => walk top es
                        | None => []
                        end).

(** lines 60-65 *)
Definition article_exists (article_id output_dir : str) : M W bool :=
  do triples <- os_walk output_dir ;
  ret (article_exists_loop article_id triples).

(** line 76: the constructor of the parser, and the record of its call *)
Definition ZhihuParser (cookies : str) (keep_logs : bool)
    (temp_dir output_dir : str) : M W (Parser ext) :=
  record (ParserCall cookies temp_dir output_dir) ;;
  lift (new_parser ext cookies keep_logs temp_dir output_dir).

(** line 78: [parser.judge_type(url)], and the record of its call *)
Definition judge_type (parser : Parser ext) (url : str) : M W unit :=
  record (JudgeCall url) ;;
  lift (parser_judge_type ext parser url).

(** lines 67-81 *)
Definition process_single_url (url cookies output_dir : str)
  : M W (str * bool * option str) :=
  match get_article_id url with
  | None | Some [] => ret (url, false, Some (lit "Invalid URL format"))
  | Some article_id =>
      do present <- article_exists article_id output_dir ;
      if present then ret (url, true, Some (lit "Article already exists"))
      else
        do parser <- ZhihuParser cookies false TEMP_DIR output_dir ;
        try_except_Exception
          (judge_type parser url ;; ret (url, true, None))
          (λ message, ret (url, false, Some message))
  end.

(** The body of the loop of [process_urls], lines 101-113, for one item
    of the iterator. *)
Definition count_result (t : tally) (r : str * bool * option str) : tally :=
  let '(success_count, failure_count, skipped_count, failed_urls) := t in
  let '(url, success, error) := r in
  if success then
    if bool_decide (error = Some (lit "Article already exists"))
    then (success_count, failure_count, skipped_count + 1, failed_urls)
    else (success_count + 1, failure_count, skipped_count, failed_urls)
  else (success_count, failure_count + 1, skipped_count,
        failed_urls ++ [(url, error)]).

Fixpoint count_results (tasks : list (result (str * bool * option str)))
    (t : tally) : M W tally :=
  match tasks with
  | [] => ret t
  | Returns r :: rest => count_results rest (count_result t r)
  | Raises e :: _ => raise e
  end.

(** lines 83-115 *)
Definition process_urls (urls : list str) (cookies output_dir : str)
  : M W tally :=
  let process_func := λ url, process_single_url url cookies output_dir in
  record (PoolCall urls) ;;
  do tasks <- pool_imap_unordered ext process_func urls ;
  count_results tasks (0, 0, 0, []).

(** lines 117-121 *)
Definition cleanup_temp_files : M W unit :=
  do present <- observe (λ w, Returns (path_exists ext w TEMP_DIR)) ;
  if present then lift (rmtree ext TEMP_DIR) ;; lift (makedirs ext TEMP_DIR)
  else ret tt.

(** lines 123-149; [url_file] is the name of a file of [URLS_DIR]. *)
Definition process_url_file (url_file cookies : str) : M W (nat * nat * nat) :=
  let output_dir := path_child EXTRACTED_DIR (stem url_file) in
  lift (makedirs ext output_dir) ;;
  do urls <- read_urls_from_file (path_join URLS_DIR url_file) ;
  do t <- process_urls urls cookies output_dir ;
  let '(success_count, failure_count, skipped_count, failed_urls) := t in
  ret (success_count, failure_count, skipped_count).

(** the loop of [main], lines 170-174 *)
Fixpoint process_url_files (url_files : list str) (cookies : str)
    (totals : nat * nat * nat) : M W (nat * nat * nat) :=
  match url_files with
  | [] => ret totals
  | url_file :: rest =>
      do counts <- process_url_file url_file cookies ;
      let '(total_success, total_failure, total_skipped) := totals in
      let '(success, failure, skipped) := counts in
      process_url_files rest cookies
        (total_success + success, total_failure + failure,
         total_skipped + skipped)
  end.

(** lines 151-183 *)
Definition main : M W unit :=
  setup_directories ;;
  cleanup_temp_files ;;
  do cookies <- read_cookies_from_file COOKIES_FILE ;
  do url_files <- get_url_files ;
  if bool_decide (url_files = []) then sys_exit 1
  else
    process_url_files url_files cookies (0, 0, 0) ;;
    cleanup_temp_files.
End Batch.

(** ** pages_to_urls.py: extraction

    A parsed document as [BeautifulSoup] gives it: a tree of tags and of
    strings ([NavigableString] and its subclasses, [Comment] among them).
    The attributes this script reads ([itemprop], [content], [target],
    [href], [data-za-detail-view-element_name]) hold one string each. *)
#[warnings="-register-all"]
Inductive PageElement :=
  | NavigableString (text : str)
  | Tag (name : str) (attrs : gmap str str) (contents : list PageElement).

(** A tag together with the elements after it in its parent, which its
    [next_sibling] links run through. *)
Definition placed_tag : Type := PageElement * list PageElement.

(** [soup.find_all(True)]: every tag, in document order. *)
Fixpoint tags_from (e : PageElement) (siblings : list PageElement)
  : list placed_tag :=
  match e with
  | NavigableString _ => []
  | Tag _ _ contents =>
      (e, siblings) ::
      (fix through (l : list PageElement) : list placed_tag :=
         match l with
         | [] => []
         | x :: l' => tags_from x l' ++ through l'
         end) contents
  end.

Fixpoint find_all (contents : list PageElement) : list placed_tag :=
  match contents with
  | [] => []
  | x :: l => tags_from x l ++ find_all l
  end.

(** lines 31-33: the first sibling that is not a string, [None] at the end
    of the parent. *)
Fixpoint skip_strings (siblings : list PageElement) : option PageElement :=
  match siblings with
  | [] => None
  | NavigableString _ :: rest => skip_strings rest
  | sib :: _ => Some sib
  end.

(** lines 34-37 *)
Definition is_date_meta (sib : option PageElement) : bool :=
  match sib with
  | Some (Tag name attrs _) =>
      bool_decide (name = lit "meta") &&
      (bool_decide (attrs !! lit "itemprop" = Some (lit "datePublished")) ||
       bool_decide (attrs !! lit "itemprop" = Some (lit "dateModified")))
  | _ => false
  end.

(** lines 39-41 and 50-52 *)
Definition add_unseen (url : str) (st : gset str * list str)
  : gset str * list str :=
  let '(seen, out) := st in
  if decide (url ∈ seen) then (seen, out)
  else ({[url]} ∪ seen, out ++ [url]).

(** The body of the loop of [extract_urls_from_soup], lines 27-52. *)
Definition visit_tag (st : gset str * list str) (tag : placed_tag)
  : gset str * list str :=
  match tag with
  | (Tag name attrs _, siblings) =>
      if bool_decide (name = lit "meta") &&
         bool_decide (attrs !! lit "itemprop" = Some (lit "url")) then
        let raw := strip (default [] (attrs !! lit "content")) in
        if bool_decide (raw ≠ []) then
          let sib := skip_strings siblings in
          if is_date_meta sib then add_unseen (normalize raw) st else st
        else st
      else if bool_decide (name = lit "a") &&
              bool_decide (attrs !! lit "target" = Some (lit "_blank")) &&
              bool_decide (attrs !! lit "data-za-detail-view-element_name"
                           = Some (lit "Title")) then
        let raw := strip (default [] (attrs !! lit "href")) in
        if bool_decide (raw ≠ []) then add_unseen (normalize raw) st else st
      else st
  | (NavigableString _, _) => st
  end.

(** [extract_urls_from_soup], lines 24-53: the list returned and the set
    [seen] as the call leaves it. *)
Definition extract_urls_from_soup (soup : list PageElement) (seen : gset str)
  : list str * gset str :=
  let '(seen', out) := fold_left visit_tag (find_all soup) (seen, []) in
  (out, seen').

(** ** pages_to_urls.py: one category *)

(** [str.lower] on the ASCII letters. No other character lower-cases to a
    character of [.html], so the test of line 70 is the same. *)
Definition lower (s : str) : str :=
  map (λ c, if (65 <=? c)%N && (c <=? 90)%N then (c + 32)%N else c) s.

(** The order of [sorted] on strings: lexicographic on code points. *)
Fixpoint str_leb (a b : str) : bool :=
  match a, b with
  | [], _ => true
  | _ :: _, [] => false
  | x :: a', y :: b' =>
      if (x <? y)%N then true
      else if (x =? y)%N then str_leb a' b' else false
  end.
Definition str_le (a b : str) : Prop := str_leb a b = true.
#[global] Instance str_le_dec a b : Decision (str_le a b) :=
  decide (str_leb a b = true).

Definition sorted (names : list str) : list str := merge_sort str_le names.

(** A category directory: its entries by name, each with the document that
    [open] and [BeautifulSoup] give for it. [os.listdir] yields the names in
    an order of its own. *)
Definition listdir (cat : gmap str (list PageElement)) : list str :=
  (map_to_list cat).*1.

(** line 70 *)
Definition html_files (cat : gmap str (list PageElement)) : list str :=
  sorted (filter (λ f, endswith (lit ".html") (lower f) = true) (listdir cat)).

(** lines 70-75: one pass of the loop over the files of a category. *)
Definition merge_file (cat : gmap str (list PageElement))
    (st : gset str * list str) (fn : str) : gset str * list str :=
  let '(seen, merged) := st in
  let soup := default [] (cat !! fn) in
  let '(result, seen') := extract_urls_from_soup soup seen in
  (seen', merged ++ result).

(** lines 66-75: the list [merged] of a category. *)
Definition category_urls (cat : gmap str (list PageElement)) : list str :=
  (fold_left (merge_file cat) (html_files cat) (∅, [])).2.

(** lines 78-81: the text written to the file of the category. *)
Definition category_text (cat : gmap str (list PageElement)) : str :=
  concat (map (λ url, url ++ newline) (category_urls cat)).

(** ** pages_to_urls.py: [main]

    The input directory holds plain files and category directories; [None]
    when it is not a directory. The result is the list of files written, in
    the order they are written, each with its text; [sys.exit] with a
    message ends the process with status 1. *)
Inductive input_entry :=
  | PlainFile
  | Category (files : gmap str (list PageElement)).

(** lines 55-83 *)
Definition pages_to_urls_main (input_dir : option (gmap str input_entry))
    (output_dir : str) : result (list (str * str)) :=
  match input_dir with
  | None => Raises (SystemExit 1)
  | Some entries =>
      Returns
        (omap (λ category,
                 match entries !! category with
                 | Some (Category files) =>
                     Some (path_join output_dir (category ++ lit ".txt"),
                           category_text files)
                 | _ => None
                 end)
              (sorted (map_to_list entries).*1))
  end.

(** *** What a document offers

    The URL a tag qualifies, by the two rules of the extractor; the URLs of
    a document are those of its tags in document order, repeats included. *)
Definition rule_meta (tag : placed_tag) : option str :=
  match tag with
  | (Tag name attrs _, siblings) =>
      if decide (name = lit "meta" ∧ attrs !! lit "itemprop" = Some (lit "url"))
      then
        let raw := strip (default [] (attrs !! lit "content")) in
        if decide (raw ≠ [] ∧ is_date_meta (skip_strings siblings) = true)
        then Some (normalize raw) else None
      else None
  | _ => None
  end.

Definition rule_title_link (tag : placed_tag) : option str :=
  match tag with
  | (Tag name attrs _, _) =>
      if decide (name = lit "a" ∧ attrs !! lit "target" = Some (lit "_blank") ∧
                 attrs !! lit "data-za-detail-view-element_name"
                 = Some (lit "Title"))
      then
        let raw := strip (default [] (attrs !! lit "href")) in
        if decide (raw ≠ []) then Some (normalize raw) else None
      else None
  | _ => None
  end.

Definition offered (tag : placed_tag) : option str :=
  match rule_meta tag with
  | Some url => Some url
  | None => rule_title_link tag
  end.

Definition offered_urls (soup : list PageElement) : list str :=
  omap offered (find_all soup).

(** The first occurrences of a list, in their order. *)
Fixpoint first_occurrences (l : list str) : list str :=
  match l with
  | [] => []
  | x :: l' => x :: filter (λ y, y ≠ x) (first_occurrences l')
  end.

(** ** Notions the properties are stated with *)

(** The four URL shapes of [get_article_id], in the order it tests them,
    and the separator each is split at. *)
Inductive shape := Article | Answer | Video | Column.

Definition marker (sh : shape) : str :=
  match sh with
  | Article => lit "zhuanlan.zhihu.com/p/"
  | Answer => lit "answer/"
  | Video => lit "zvideo/"
  | Column => lit "column/"
  end.

Definition recognized (url : str) : option shape :=
  if contains (lit "zhuanlan.zhihu.com/p/") url then Some Article
  else if contains (lit "question") url && contains (lit "answer") url
  then Some Answer
  else if contains (lit "zvideo") url then Some Video
  else if contains (lit "column") url then Some Column
  else None.

(** The directories [os.walk] visits from [top]: [top] itself and, below a
    visited directory, each of its sub-directories under the joined path. *)
Inductive walked : str → list entry → str → Prop :=
  | walked_top top es : walked top es top
  | walked_sub top es name sub p :
      Dir name sub ∈ es → walked (path_join top name) sub p →
      walked top es p.

(** The entries below a directory, at any depth. *)
Inductive below : list entry → entry → Prop :=
  | below_here es e : e ∈ es → below es e
  | below_deeper es name sub e :
      Dir name sub ∈ es → below sub e → below es e.

(** The exit status of the interpreter for the way [main] ends: an
    exception that is not caught ends the process with status 1. *)
Definition exit_status (r : result unit) : Z :=
  match r with
  | Returns _ => 0
  | Raises (SystemExit code) => code
  | Raises _ => 1
  end.

(** What the script relies on from [imap_unordered]: the items it yields
    are, in some order, the results of one run of the function on each URL
    of the list. *)
Definition pool_runs_each_once {W} (ext : Externals W) : Prop :=
  ∀ T (f : str → M W T) urls s tasks s',
    pool_imap_unordered ext f urls s = (Returns tasks, s') →
    ∃ runs, tasks ≡ₚ runs ∧
            Forall2 (λ url r, ∃ s1 s2, f url s1 = (r, s2)) urls runs.

(** ** A small outside world to run the script in *)

Record demo_world := DemoWorld {
  demo_dirs : gmap str (list entry);
  demo_texts : gmap str str;
  demo_url_files : list str;
}.

(** A pool of one worker that yields its results last first. *)
Fixpoint demo_pool {W T} (f : str → M W T) (urls : list str)
  : M W (list (result T)) :=
  match urls with
  | [] => ret []
  | url :: rest =>
      λ s, let '(r, s1) := f url s in
           let '(rs, s2) := demo_pool f rest s1 in
           (match rs with
            | Returns items => Returns (items ++ [r])
            | Raises e => Raises e
            end, s2)
  end.

(** The fetch unit of the demo world is given by what its constructor and
    its [judge_type] do. *)
Definition demo_externals (construct : result unit)
    (judge : str → result unit) : Externals demo_world :=
  {| listing w path := demo_dirs w !! path;
     path_exists w path := bool_decide (is_Some (demo_texts w !! path));
     read_text w path :=
       match demo_texts w !! path with
       | Some text => Returns text
       | None => Raises (Exception (lit "No such file or directory"))
       end;
     glob_txt w := demo_url_files w;
     makedirs path w := (Returns tt, w);
     rmtree path w := (Returns tt, w);
     Parser := unit;
     new_parser cookies keep_logs temp_dir output_dir w := (construct, w);
     parser_judge_type parser url w := (judge url, w);
     pool_imap_unordered T f urls := demo_pool f urls |}.

Definition demo_output_dir : str := lit "zhihu/markdown/tech".

(** An output directory after an earlier run: the directory of article
    12345 and, next to it, a file named after article 67890. *)
Definition demo_tree : list entry :=
  [Dir (lit "2024-01-01_title_12345") [File (lit "index.md")];
   File (lit "67890.md")].

Definition demo_start : state demo_world :=
  State
    {| demo_dirs := {[ demo_output_dir := demo_tree ]};
       demo_texts :=
         {[ COOKIES_FILE := lit "z_c0=token" ++ newline;
            path_join URLS_DIR (lit "tech.txt") :=
              lit "https://zhuanlan.zhihu.com/p/12345" ++ newline ++
              lit "https://example.com/about" ++ newline ++
              lit "https://www.zhihu.com/question/1/answer/67890" ++ newline ]};
       demo_url_files := [lit "tech.txt"] |}
    [].

(** A fetch unit that works. *)
Definition demo_ok : Externals demo_world :=
  demo_externals (Returns tt) (λ _, Returns tt).

(** A fetch unit whose [judge_type] ends the process, as [sys.exit(1)]
    does, and one whose constructor fails. *)
Definition demo_exiting : Externals demo_world :=
  demo_externals (Returns tt) (λ _, Raises (SystemExit 1)).
Definition demo_unbuildable : Externals demo_world :=
  demo_externals (Raises (Exception (lit "cannot create temp dir")))
                 (λ _, Returns tt).
(** A fetch unit that fails, with an ordinary exception, on one URL. *)
Definition demo_failing_on (bad : str) : Externals demo_world :=
  demo_externals (Returns tt)
    (λ url, if bool_decide (url = bad)
            then Raises (Exception (lit "HTTP 403")) else Returns tt).

(** A computation that makes no call of the fetch unit or of the pool. *)
Definition keeps_calls {W A} (m : M W A) : Prop :=
  ∀ s r s', m s = (r, s') → calls s' = calls s.

(** Three worlds in which [main] cannot start: no cookies file, a cookies
    file of whitespace, and no URL list. *)
Definition demo_no_cookies : state demo_world :=
  State {| demo_dirs := ∅; demo_texts := ∅;
           demo_url_files := [lit "tech.txt"] |} [].
Definition demo_blank_cookies : state demo_world :=
  State {| demo_dirs := ∅;
           demo_texts := {[ COOKIES_FILE := lit "  " ++ newline ]};
           demo_url_files := [lit "tech.txt"] |} [].
Definition demo_no_url_files : state demo_world :=
  State {| demo_dirs := ∅;
           demo_texts := {[ COOKIES_FILE := lit "z_c0=token" ++ newline ]};
           demo_url_files := [] |} [].

(** The list of the end-to-end example: an article fetched before, a URL
    of no known shape and an answer still to fetch. *)
Definition demo_urls : list str :=
  [lit "https://zhuanlan.zhihu.com/p/12345";
   lit "https://example.com/about";
   lit "https://www.zhihu.com/question/1/answer/67890"].

(** The URLs of a list that are new to a set of seen ones, each once, at
    its first place. *)
Fixpoint new_urls (seen : gset str) (l : list str) : list str :=
  match l with
  | [] => []
  | x :: l' =>
      if decide (x ∈ seen) then new_urls seen l'
      else x :: new_urls ({[x]} ∪ seen) l'
  end.

(** The URLs the documents of a category offer, file after file in the
    order of [html_files]. *)
Definition offered_in_order (cat : gmap str (list PageElement)) : list str :=
  concat (map (λ fn, offered_urls (default [] (cat !! fn))) (html_files cat)).

(** A category of two pages and a text file. The page processed first names
    an article in its metadata and links an answer; the second links the same
    article again, has a metadata URL without date, and links a new answer. *)
Definition demo_title_link (href : str) : PageElement :=
  Tag (lit "a")
      {[ lit "target" := lit "_blank";
         lit "data-za-detail-view-element_name" := lit "Title";
         lit "href" := href ]} [NavigableString (lit "title")].

Definition demo_category : gmap str (list PageElement) :=
  {[ lit "b.html" :=
       [Tag (lit "div") ∅
          [demo_title_link (lit " //zhuanlan.zhihu.com/p/1 ");
           Tag (lit "meta") {[ lit "itemprop" := lit "url";
                               lit "content" := lit "//www.zhihu.com/people/x" ]} [];
           Tag (lit "span") ∅ [];
           demo_title_link (lit "https://www.zhihu.com/question/3/answer/4")]];
     lit "a.HTML" :=
       [Tag (lit "div") ∅
          [Tag (lit "meta") {[ lit "itemprop" := lit "url";
                               lit "content" := lit "//zhuanlan.zhihu.com/p/1" ]} [];
           NavigableString newline;
           Tag (lit "meta") {[ lit "itemprop" := lit "datePublished";
                               lit "content" := lit "2024-01-01" ]} [];
           demo_title_link (lit "https://www.zhihu.com/question/1/answer/2")]];
     lit "notes.txt" := [demo_title_link (lit "https://www.zhihu.com/column/c")] ]}.

(** ** Further notions and examples *)

(** The world after the extraction stage has written the URL list of the
    demo category. *)
Definition demo_after_extraction : state demo_world :=
  State
    {| demo_dirs := ∅;
       demo_texts :=
         {[ COOKIES_FILE := lit "z_c0=token" ++ newline;
            path_join URLS_DIR (lit "tech.txt") := category_text demo_category ]};
       demo_url_files := [lit "tech.txt"] |}
    [].

(** The outcomes of a batch by kind, as the loop of [process_urls] tells
    them apart. *)
Definition failures (values : list (str * bool * option str))
  : list (str * bool * option str) :=
  filter (λ r, r.1.2 = false) values.
Definition skips (values : list (str * bool * option str))
  : list (str * bool * option str) :=
  filter (λ r, r.1.2 = true ∧ r.2 = Some (lit "Article already exists")) values.
Definition successes (values : list (str * bool * option str))
  : list (str * bool * option str) :=
  filter (λ r, r.1.2 = true ∧ r.2 ≠ Some (lit "Article already exists")) values.

(** * Properties *)

(** *** Facts about the string operations *)

Lemma startswith_spec p s : startswith p s = true ↔ ∃ r, s = p ++ r.
Proof.
  revert s; induction p as [|a p IH]; intros s; simpl.
  - split; eauto.
  - destruct s as [|b s].
    + split; [done | intros [r Hr]; discriminate].
    + rewrite andb_true_iff, N.eqb_eq, IH. split.
      * intros [-> [r ->]]. by exists r.
      * intros [r Hr]. simplify_eq. eauto.
Qed.

Lemma startswith_app p r : startswith p (p ++ r) = true.
Proof. apply startswith_spec; eauto. Qed.

Lemma contains_spec sub s :
  contains sub s = true ↔ ∃ l r, s = l ++ sub ++ r.
Proof.
  induction s as [|c s IH]; simpl.
  - rewrite orb_false_r, startswith_spec. split.
    + intros [r Hr]. by exists [], r.
    + intros (l & r & H). symmetry in H.
      apply app_eq_nil in H as [-> H]. exists r. done.
  - rewrite orb_true_iff, startswith_spec, IH. split.
    + intros [[r Hr] | (l & r & ->)].
      * by exists [], r.
      * by exists (c :: l), r.
    + intros (l & r & H). destruct l as [|c' l]; simpl in H.
      * left. eauto.
      * right. simplify_eq. eauto.
Qed.

Lemma lstrip_decompose s :
  ∃ l, s = l ++ lstrip s ∧ blank l ∧
       ∀ c t', lstrip s = c :: t' → isspace c = false.
Proof.
  induction s as [|c s (l & Hs & Hl & Hh)]; simpl.
  - exists []. repeat split; [constructor | done].
  - destruct (isspace c) eqn:Hc.
    + exists (c :: l). repeat split; [simpl; congruence | by constructor | done].
    + exists []. repeat split; [constructor |]. intros ? ? ?. by simplify_eq.
Qed.

Lemma lstrip_blank_app l s : blank l → lstrip (l ++ s) = lstrip s.
Proof. induction 1 as [|c l Hc _ IH]; simpl; [done | by rewrite Hc]. Qed.

Lemma lstrip_head c s : isspace c = false → lstrip (c :: s) = c :: s.
Proof. intros H; simpl; by rewrite H. Qed.

Lemma strip_decompose s :
  ∃ l r, s = l ++ strip s ++ r ∧ blank l ∧ blank r ∧ trimmed (strip s).
Proof.
  destruct (lstrip_decompose s) as (l & Hs & Hl & Hh).
  destruct (lstrip_decompose (rev (lstrip s))) as (r & Hr & Hbr & Hhr).
  exists l, (rev r). unfold strip, rstrip.
  assert (Hm : lstrip s = rev (lstrip (rev (lstrip s))) ++ rev r).
  { rewrite <- rev_app_distr, <- Hr, rev_involutive. done. }
  repeat split.
  - rewrite <- Hm. done.
  - done.
  - unfold blank in *. rewrite Forall_forall in *. intros c Hc.
    apply Hbr. apply list_elem_of_In in Hc. apply list_elem_of_In.
    by apply in_rev.
  - intros c t' Ht. destruct (lstrip (rev (lstrip s))) as [|d u] eqn:Hu.
    + discriminate.
    + apply (Hh c (t' ++ rev r)). rewrite Hm, Ht. done.
  - intros c t' Ht. apply (Hhr c (rev t')).
    rewrite <- (rev_involutive (lstrip (rev (lstrip s)))), Ht.
    rewrite rev_app_distr. done.
Qed.

Lemma strip_unique l t r :
  blank l → blank r → trimmed t → strip (l ++ t ++ r) = t.
Proof.
  intros Hl Hr [Hh Hlast]. unfold strip, rstrip.
  rewrite lstrip_blank_app by done.
  destruct t as [|c t].
  - simpl. clear Hh Hlast.
    assert (lstrip r = []) as ->.
    { induction Hr as [|d r Hd _ IH]; simpl; [done | by rewrite Hd]. }
    done.
  - rewrite <- app_comm_cons, lstrip_head by eauto.
    rewrite app_comm_cons, rev_app_distr.
    rewrite lstrip_blank_app.
    2:{ unfold blank in *. rewrite Forall_forall in *. intros d Hd.
        apply Hr. apply list_elem_of_In. apply in_rev.
        by apply list_elem_of_In. }
    destruct (rev (c :: t)) as [|d u] eqn:Hu.
    + apply (f_equal (@length N)) in Hu. rewrite length_rev in Hu. done.
    + rewrite lstrip_head.
      * rewrite <- Hu. apply rev_involutive.
      * apply (Hlast d (rev u)).
        rewrite <- (rev_involutive (c :: t)), Hu. done.
Qed.

(** ** Properties of [normalize] *)

(** C3, as amended: every raw string splits into leading whitespace, a
    trimmed middle and trailing whitespace; [normalize] returns the
    middle with [https:] prepended when the middle starts with [//], and the
    middle itself otherwise. *)
Theorem normalize_trims_then_prefixes (raw : str) :
  ∃ l t r, raw = l ++ t ++ r ∧ blank l ∧ blank r ∧ trimmed t ∧
    normalize raw =
      if startswith (lit "//") t then lit "https:" ++ t else t.
Proof.
  destruct (strip_decompose raw) as (l & r & Hraw & Hl & Hr & Ht).
  exists l, (strip raw), r. repeat split; try done; apply Ht.
Qed.

(** The middle is determined by the raw string, so the result above is the
    only one possible. *)
Lemma normalize_of_parts l t r :
  blank l → blank r → trimmed t →
  normalize (l ++ t ++ r) =
    if startswith (lit "//") t then lit "https:" ++ t else t.
Proof. intros. unfold normalize. by rewrite strip_unique. Qed.

(** C3 as stated fails: a raw string that starts with [//] and ends
    with a space loses the space, so the result is not the raw string with
    [https:] prepended. *)
Lemma normalize_not_plain_prefix :
  startswith (lit "//") (lit "//a.com/p/1 ") = true ∧
  normalize (lit "//a.com/p/1 ") = lit "https://a.com/p/1" ∧
  normalize (lit "//a.com/p/1 ") ≠ lit "https:" ++ lit "//a.com/p/1 ".
Proof. vm_compute. repeat split; discriminate. Qed.

(** A raw string that does not start with [//] but does after trimming is
    prefixed as well, so it is not returned as the trimmed input. *)
Lemma normalize_leading_space :
  startswith (lit "//") (lit " //a.com/p/1") = false ∧
  normalize (lit " //a.com/p/1") = lit "https://a.com/p/1" ∧
  normalize (lit " //a.com/p/1") ≠ strip (lit " //a.com/p/1").
Proof. vm_compute. repeat split; discriminate. Qed.

(** On inputs that are already trimmed, as [extract_urls_from_soup] passes
    them, the result is the input with [https:] prepended or the input. *)
Lemma normalize_trimmed (raw : str) :
  trimmed raw →
  normalize raw =
    if startswith (lit "//") raw then lit "https:" ++ raw else raw.
Proof.
  intros Ht. rewrite <- (normalize_of_parts [] raw []); try done.
  - simpl. by rewrite app_nil_r.
  - constructor.
  - constructor.
Qed.

(** A normalized URL never starts with [//]. *)
Lemma normalize_not_scheme_relative raw :
  startswith (lit "//") (normalize raw) = false.
Proof.
  unfold normalize. destruct (startswith (lit "//") (strip raw)) eqn:H; done.
Qed.

(** ** Facts about [split] *)

Lemma strip_prefix_spec p s r : strip_prefix p s = Some r ↔ s = p ++ r.
Proof.
  revert s; induction p as [|a p IH]; intros s; simpl.
  - split; congruence.
  - destruct s as [|b s]; [done|].
    destruct (N.eqb_spec a b) as [->|Hne].
    + rewrite IH. split; congruence.
    + split; [done | congruence].
Qed.

Lemma strip_prefix_app p r : strip_prefix p (p ++ r) = Some r.
Proof. by apply strip_prefix_spec. Qed.

Lemma border_freeb_sound sep : border_freeb sep = true → border_free sep.
Proof.
  unfold border_freeb. rewrite forallb_forall.
  intros Hall a k b Ha Hb Hane Hkne.
  specialize (Hall (length a)).
  assert (Hin : In (length a) (seq 1 (length sep - 1))).
  { apply in_seq. rewrite Ha, length_app.
    destruct a; [done|]. destruct k; [done|]. simpl. lia. }
  apply Hall in Hin. rewrite Ha in Hin at 1.
  rewrite drop_app_length in Hin.
  assert (startswith k sep = true) as Hk by (apply startswith_spec; eauto).
  rewrite Hk in Hin. done.
Qed.

Lemma split_from_nonempty fuel sep s cur : split_from fuel sep s cur ≠ [].
Proof.
  revert s cur; induction fuel as [|fuel IH]; intros s cur; simpl; [done|].
  destruct s as [|c s]; [done|].
  destruct (strip_prefix sep (c :: s)); [done | apply IH].
Qed.

Lemma final_cons x (l : list str) : l ≠ [] → final (x :: l) = final l.
Proof. destruct l; [done|]. done. Qed.

Lemma contains_suffix sub a b :
  contains sub (a ++ b) = false → contains sub b = false.
Proof.
  intros H. destruct (contains sub b) eqn:Hb; [|done].
  apply contains_spec in Hb as (l & r & ->).
  rewrite <- H. symmetry. apply contains_spec.
  exists (a ++ l), r. by rewrite <- app_assoc.
Qed.


Lemma contains_single c t : c ∉ t → contains [c] t = false.
Proof.
  induction t as [|d t IH]; [done|]. intros Hc.
  simpl. destruct (N.eqb_spec c d) as [->|_]; [set_solver|].
  simpl. apply IH. set_solver.
Qed.

Section split_facts.
(** A separator without border, as the separators of [get_article_id]. *)
Variable sep : str.
Hypothesis sep_nonempty : sep ≠ [].
Hypothesis sep_border_free : border_free sep.

(** A string that holds no occurrence of the separator is one piece. *)
Lemma split_from_one_piece fuel t cur :
  contains sep t = false → length t < fuel →
  split_from fuel sep t cur = [rev cur ++ t].
Proof.
  clear sep_border_free sep_nonempty.
  revert t cur; induction fuel as [|fuel IH]; intros t cur Hc Hlen; [lia|].
  destruct t as [|d t]; simpl.
  - by rewrite app_nil_r.
  - simpl in Hc. apply orb_false_iff in Hc as [Hstart Hc].
    destruct (strip_prefix sep (d :: t)) as [rest|] eqn:Hp.
    + apply strip_prefix_spec in Hp.
      rewrite (proj2 (startswith_spec sep (d :: t))) in Hstart by eauto.
      done.
    + rewrite IH; [| done | simpl in Hlen; lia].
      simpl. by rewrite <- app_assoc.
Qed.

(** The last piece of a string that holds the separator followed by [t] is
    [t], when no occurrence of the separator ends within [t]. *)
Lemma split_from_final fuel y t cur :
  contains sep (drop 1 sep ++ t) = false →
  length (y ++ sep ++ t) < fuel →
  final (split_from fuel sep (y ++ sep ++ t) cur) = t.
Proof.
  revert y cur; induction fuel as [|fuel IH]; intros y cur Hc Hlen; [lia|].
  assert (Hsep : 0 < length sep) by (destruct sep; [done | simpl; lia]).
  destruct (y ++ sep ++ t) as [|d s] eqn:Hs.
  { apply (f_equal (@length N)) in Hs.
    rewrite !length_app in Hs. simpl in Hs. lia. }
  simpl. destruct (strip_prefix sep (d :: s)) as [rest|] eqn:Hp.
  - rewrite final_cons by apply split_from_nonempty.
    apply strip_prefix_spec in Hp. rewrite <- Hs in Hp.
    assert (Hrl : length rest < fuel).
    { apply (f_equal (@length N)) in Hp. rewrite <- Hs in Hlen.
      rewrite !length_app in *. simpl in Hlen. lia. }
    apply app_eq_inv in Hp as [(k & Hy & Hrest) | (k & Hk & Hrest)].
    + (* the occurrence lies within [y] *)
      subst rest. apply IH; done.
    + (* the occurrence starts in [y] and reaches into the separator *)
      destruct (decide (y = [])) as [->|Hy].
      * simpl in Hk. subst k. apply app_inv_head in Hrest. subst rest.
        rewrite split_from_one_piece; [done | | done].
        by apply contains_suffix in Hc.
      * destruct (decide (k = [])) as [->|Hkne].
        { simpl in Hrest. subst rest. apply (IH []); done. }
        exfalso. symmetry in Hrest.
        apply app_eq_inv in Hrest as [(k' & Hk' & _) | (k' & Hk' & _)].
        -- apply (f_equal (@length N)) in Hk, Hk'.
           rewrite !length_app in *. destruct y; [done|]. simpl in *. lia.
        -- exact (sep_border_free y k k' Hk Hk' Hy Hkne).
  - destruct y as [|e y].
    + simpl in Hs. rewrite <- Hs, strip_prefix_app in Hp. done.
    + simpl in Hs. simplify_eq. apply IH; [done|].
      simpl in Hlen. lia.
Qed.

Lemma split_final y t :
  contains sep (drop 1 sep ++ t) = false →
  final (split sep (y ++ sep ++ t)) = t.
Proof.
  intros Hc. unfold split. apply split_from_final; [done | lia].
Qed.
End split_facts.

(** The first piece of a split at one character is what stands before its
    first occurrence. *)
Lemma split_from_first c t r : ∀ fuel cur,
  c ∉ t → length (t ++ c :: r) < fuel →
  first (split_from fuel [c] (t ++ c :: r) cur) = rev cur ++ t.
Proof.
  induction t as [|d t IH]; intros [|fuel] cur Hc Hlen; simpl in *; try lia.
  - rewrite N.eqb_refl. simpl. by rewrite app_nil_r.
  - destruct (N.eqb_spec c d) as [->|_]; [set_solver|].
    rewrite IH; [| set_solver | lia]. simpl. by rewrite <- app_assoc.
Qed.

Lemma split_first c t r :
  c ∉ t → first (split [c] (t ++ c :: r)) = t.
Proof. intros Hc. unfold split. rewrite split_from_first; [done | done | lia]. Qed.

(** ** Identifier extraction *)

Lemma endswith_spec p s : endswith p s = true ↔ ∃ y, s = y ++ p.
Proof.
  unfold endswith. rewrite startswith_spec. split.
  - intros [r Hr]. exists (rev r).
    rewrite <- (rev_involutive s), Hr, rev_app_distr, rev_involutive. done.
  - intros [y ->]. exists (rev y). by rewrite rev_app_distr.
Qed.

Lemma marker_border_free sh : border_free (marker sh).
Proof. apply border_freeb_sound. by destruct sh. Qed.

(** The piece after the last marker is what follows it, when no further
    marker ends in it. *)
Lemma final_split_marker sh y t :
  contains (marker sh) (drop 1 (marker sh) ++ t) = false →
  final (split (marker sh) (y ++ marker sh ++ t)) = t.
Proof.
  intros Ht. apply split_final; [by destruct sh | apply marker_border_free | done].
Qed.

(** [get_article_id] splits at the marker of the shape it recognizes. *)
Lemma get_article_id_by_shape url :
  get_article_id url =
    (λ sh, first (split (lit "/") (final (split (marker sh) url))))
      <$> recognized url.
Proof.
  unfold get_article_id, recognized.
  repeat match goal with |- context [if ?b then _ else _] => destruct b end;
    reflexivity.
Qed.

Lemma first_split_slash_free t : 47%N ∉ t → first (split (lit "/") t) = t.
Proof.
  intros Ht. unfold split.
  rewrite split_from_one_piece; [done | by apply contains_single | simpl; lia].
Qed.

(** The identifier of a URL of a recognized shape: what stands between the
    last marker and the next slash. *)
Lemma get_article_id_after_marker url sh y id tail :
  recognized url = Some sh → url = y ++ marker sh ++ id ++ tail →
  47%N ∉ id → tail = [] ∨ (∃ r, tail = 47%N :: r) →
  contains (marker sh) (drop 1 (marker sh) ++ id ++ tail) = false →
  get_article_id url = Some id.
Proof.
  intros Hsh -> Hid Htail Hlast.
  rewrite get_article_id_by_shape, Hsh.
  change (Some (first (split (lit "/")
            (final (split (marker sh) (y ++ marker sh ++ id ++ tail)))))
          = Some id).
  rewrite final_split_marker by done. f_equal.
  destruct Htail as [-> | [r ->]].
  - rewrite app_nil_r. by apply first_split_slash_free.
  - by apply (split_first 47%N).
Qed.

Lemma first_split_prefix c s :
  (c ∉ first (split [c] s)) ∧
  (∃ r, s = first (split [c] s) ++ r ∧ (r = [] ∨ ∃ r', r = c :: r')).
Proof.
  destruct (decide (c ∈ s)) as [Hc|Hc].
  - apply list_elem_of_split_l in Hc as (t & r & -> & Ht).
    rewrite split_first by done. split; [done|]. exists (c :: r). eauto.
  - unfold split. rewrite split_from_one_piece;
      [| by apply contains_single | simpl; lia].
    simpl. split; [done|]. exists []. split; [by rewrite app_nil_r | by left].
Qed.





(** A URL of none of the four kinds that holds the word [column] is given
    an identifier, the scheme of the URL, and is fetched. *)
Lemma get_article_id_unrelated_word :
  get_article_id (lit "https://example.com/columnist/bob") = Some (lit "https:") ∧
  (process_single_url demo_ok (lit "https://example.com/columnist/bob")
     (lit "z_c0=token") demo_output_dir demo_start).2 =
    State (world demo_start)
      [ParserCall (lit "z_c0=token") TEMP_DIR demo_output_dir;
       JudgeCall (lit "https://example.com/columnist/bob")].
Proof. by vm_compute. Qed.

(** A URL that stops right after the marker of its shape has the empty
    identifier. *)
Lemma get_article_id_nothing_after_marker url sh :
  recognized url = Some sh → endswith (marker sh) url = true →
  get_article_id url = Some [].
Proof.
  intros Hsh [y ->]%endswith_spec.
  apply (get_article_id_after_marker _ sh y [] []).
  - done.
  - by rewrite !app_nil_r.
  - apply not_elem_of_nil.
  - by left.
  - by destruct sh.
Qed.

(** A URL that holds the tested word of a shape without the slash of its
    marker is split at nothing: the identifier is then the text before the
    first slash of the URL. *)
Lemma get_article_id_marker_without_slash :
  get_article_id (lit "https://www.zhihu.com/zvideo") = Some (lit "https:").
Proof. by vm_compute. Qed.

(** ** [process_single_url] *)

Section process_single_url_facts.
Context {W : Type} (ext : Externals W).
Implicit Types (url cookies output_dir : str) (s : state W).

Lemma article_exists_reads_only article_id output_dir s :
  article_exists ext article_id output_dir s =
    (Returns match listing ext (world s) output_dir with
             | Some es => article_exists_loop article_id (walk output_dir es)
             | None => false
             end, s).
Proof.
  unfold article_exists, os_walk, observe, bind, ret.
  by destruct (listing ext (world s) output_dir).
Qed.

Lemma article_exists_total article_id output_dir s :
  ∃ b, article_exists ext article_id output_dir s = (Returns b, s).
Proof. rewrite article_exists_reads_only. eauto. Qed.

(** An exception leaves [process_single_url] only from the constructor of
    the parser, or from [judge_type] when it is not of class [Exception]. *)
Lemma process_single_url_raises_only url cookies output_dir s e s' :
  process_single_url ext url cookies output_dir s = (Raises e, s') →
  (∃ w, new_parser ext cookies false TEMP_DIR output_dir (world s)
        = (Raises e, w)) ∨
  (∃ parser w1 w,
     new_parser ext cookies false TEMP_DIR output_dir (world s)
       = (Returns parser, w1) ∧
     parser_judge_type ext parser url w1 = (Raises e, w) ∧
     ∀ message, e ≠ Exception message).
Proof.
  unfold process_single_url.
  destruct (get_article_id url) as [[|c article_id]|]; [done| |done].
  destruct (article_exists_total (c :: article_id) output_dir s) as [b Hb].
  unfold bind at 1. rewrite Hb. destruct b; [done|].
  unfold bind at 1, ZhihuParser, bind, record, lift. simpl.
  destruct (new_parser ext cookies false TEMP_DIR output_dir (world s))
    as [[parser|e0] w1] eqn:Hnew.
  - unfold try_except_Exception, judge_type, bind, record, lift. simpl.
    destruct (parser_judge_type ext parser url w1)
      as [[[]|[message|code|message]] w2] eqn:Hjudge; unfold ret;
      intros [= <- <-]; right; exists parser, w1, w2; done.
  - intros [= <- <-]. left. eauto.
Qed.
End process_single_url_facts.

(** C4: a URL without identifier fails with the reason "Invalid URL format",
    whatever the fetch unit is, and the state is left as it was: no call of
    the fetch unit is made. *)
Theorem process_single_url_invalid {W} (ext : Externals W)
    (url cookies output_dir : str) (s : state W) :
  get_article_id url = None →
  process_single_url ext url cookies output_dir s =
    (Returns (url, false, Some (lit "Invalid URL format")), s).
Proof. intros H. unfold process_single_url. by rewrite H. Qed.

Lemma process_single_url_invalid_witness :
  get_article_id (lit "https://example.com/about") = None ∧
  process_single_url demo_ok (lit "https://example.com/about")
    (lit "z_c0=token") demo_output_dir demo_start =
    (Returns (lit "https://example.com/about", false,
              Some (lit "Invalid URL format")), demo_start).
Proof.
  split; [by vm_compute|].
  apply process_single_url_invalid. by vm_compute.
Defined.

(** C10: a URL that stops right after the marker of its shape has the empty
    identifier and is treated as a URL without identifier. *)
Theorem process_single_url_empty_identifier {W} (ext : Externals W)
    (url cookies output_dir : str) (s : state W) (sh : shape) :
  recognized url = Some sh → endswith (marker sh) url = true →
  get_article_id url = Some [] ∧
  process_single_url ext url cookies output_dir s =
    (Returns (url, false, Some (lit "Invalid URL format")), s).
Proof.
  intros Hsh Hend.
  pose proof (get_article_id_nothing_after_marker url sh Hsh Hend) as Hid.
  split; [done|]. unfold process_single_url. by rewrite Hid.
Qed.

Lemma process_single_url_empty_identifier_witness :
  (recognized (lit "https://www.zhihu.com/zvideo/") = Some Video ∧
   endswith (marker Video) (lit "https://www.zhihu.com/zvideo/") = true) ∧
  get_article_id (lit "https://www.zhihu.com/zvideo/") = Some [] ∧
  process_single_url demo_ok (lit "https://www.zhihu.com/zvideo/")
    (lit "z_c0=token") demo_output_dir demo_start =
    (Returns (lit "https://www.zhihu.com/zvideo/", false,
              Some (lit "Invalid URL format")), demo_start).
Proof.
  split; [by vm_compute|].
  apply (process_single_url_empty_identifier demo_ok _ _ _ _ Video);
    by vm_compute.
Defined.

(** C5: when the check is reached and reports the identifier present, the
    outcome is the one [process_urls] counts as skipped, and the state is
    left as it was: no call of the fetch unit is made. *)
Theorem process_single_url_skips {W} (ext : Externals W)
    (url cookies output_dir article_id : str) (s : state W) :
  get_article_id url = Some article_id → article_id ≠ [] →
  (article_exists ext article_id output_dir s).1 = Returns true →
  process_single_url ext url cookies output_dir s =
    (Returns (url, true, Some (lit "Article already exists")), s) ∧
  ∀ successes failures skipped failed_urls,
    count_result (successes, failures, skipped, failed_urls)
      (url, true, Some (lit "Article already exists")) =
    (successes, failures, skipped + 1, failed_urls).
Proof.
  intros Hid Hne Hex. split; [|done].
  unfold process_single_url. rewrite Hid.
  destruct article_id as [|c article_id]; [done|].
  destruct (article_exists_total ext (c :: article_id) output_dir s)
    as [b Hb].
  unfold bind at 1. rewrite Hb in Hex |- *. simpl in Hex.
  injection Hex as ->. done.
Qed.

Lemma process_single_url_skips_witness :
  (get_article_id (lit "https://zhuanlan.zhihu.com/p/12345")
     = Some (lit "12345") ∧
   (article_exists demo_ok (lit "12345") demo_output_dir demo_start).1
     = Returns true) ∧
  process_single_url demo_ok (lit "https://zhuanlan.zhihu.com/p/12345")
    (lit "z_c0=token") demo_output_dir demo_start =
    (Returns (lit "https://zhuanlan.zhihu.com/p/12345", true,
              Some (lit "Article already exists")), demo_start).
Proof.
  split; [by vm_compute|].
  refine (proj1 (process_single_url_skips demo_ok _ _ _ (lit "12345") _ _ _ _));
    by vm_compute.
Defined.

(** C2, as amended: once the parser is built, an exception of class
    [Exception] raised by [judge_type] is caught; the outcome is the failure
    with the message of the exception, which [process_urls] counts as a
    failure of this URL. *)
Theorem process_single_url_catches_Exception {W} (ext : Externals W)
    (url cookies output_dir article_id : str) (s : state W)
    (parser : Parser ext) (w1 w2 : W) (message : str) :
  get_article_id url = Some article_id → article_id ≠ [] →
  (article_exists ext article_id output_dir s).1 = Returns false →
  new_parser ext cookies false TEMP_DIR output_dir (world s)
    = (Returns parser, w1) →
  parser_judge_type ext parser url w1 = (Raises (Exception message), w2) →
  process_single_url ext url cookies output_dir s =
    (Returns (url, false, Some message),
     State w2 (calls s ++ [ParserCall cookies TEMP_DIR output_dir;
                           JudgeCall url])) ∧
  ∀ successes failures skipped failed_urls,
    count_result (successes, failures, skipped, failed_urls)
      (url, false, Some message) =
    (successes, failures + 1, skipped, failed_urls ++ [(url, Some message)]).
Proof.
  intros Hid Hne Hex Hnew Hjudge. split; [|done].
  unfold process_single_url. rewrite Hid.
  destruct article_id as [|c article_id]; [done|].
  destruct (article_exists_total ext (c :: article_id) output_dir s)
    as [b Hb].
  unfold bind at 1. rewrite Hb in Hex |- *. simpl in Hex.
  injection Hex as ->.
  unfold bind at 1, ZhihuParser, bind, record, lift. simpl.
  rewrite Hnew. unfold try_except_Exception, judge_type, bind, record, lift.
  simpl. rewrite Hjudge. unfold ret. by rewrite <- app_assoc.
Qed.

Lemma process_single_url_catches_Exception_witness :
  let url := lit "https://www.zhihu.com/question/1/answer/67890" in
  (get_article_id url = Some (lit "67890") ∧
   (article_exists (demo_failing_on url) (lit "67890") demo_output_dir
      demo_start).1 = Returns false) ∧
  process_single_url (demo_failing_on url) url (lit "z_c0=token")
    demo_output_dir demo_start =
    (Returns (url, false, Some (lit "HTTP 403")),
     State (world demo_start)
       [ParserCall (lit "z_c0=token") TEMP_DIR demo_output_dir;
        JudgeCall url]).
Proof.
  intros url. split; [by vm_compute|].
  refine (proj1 (process_single_url_catches_Exception (demo_failing_on url)
                   url _ _ (lit "67890") demo_start tt _ _ _ _ _ _ _ _));
    by vm_compute.
Defined.

(** C2 as stated fails: [except Exception] does not catch what is outside
    the class [Exception]. A [judge_type] that ends with [sys.exit(1)] is
    reached for this URL, and the [SystemExit] leaves
    [process_single_url]. *)
Lemma process_single_url_lets_SystemExit_through :
  let url := lit "https://www.zhihu.com/question/1/answer/67890" in
  get_article_id url = Some (lit "67890") ∧
  (article_exists demo_exiting (lit "67890") demo_output_dir demo_start).1
    = Returns false ∧
  process_single_url demo_exiting url (lit "z_c0=token") demo_output_dir
    demo_start =
    (Raises (SystemExit 1),
     State (world demo_start)
       [ParserCall (lit "z_c0=token") TEMP_DIR demo_output_dir;
        JudgeCall url]).
Proof. by vm_compute. Qed.

(** The constructor of the parser is called before the [try]: an exception
    it raises leaves [process_single_url] too, and ends [process_urls] when
    the iteration over the results reaches it. *)
Lemma process_single_url_constructor_outside_try :
  let url := lit "https://www.zhihu.com/question/1/answer/67890" in
  (process_single_url demo_unbuildable url (lit "z_c0=token") demo_output_dir
     demo_start).1 = Raises (Exception (lit "cannot create temp dir")) ∧
  (process_urls demo_unbuildable
     [lit "https://zhuanlan.zhihu.com/p/12345"; url] (lit "z_c0=token")
     demo_output_dir demo_start).1
    = Raises (Exception (lit "cannot create temp dir")).
Proof. by vm_compute. Qed.

(** ** The idempotency check *)

Lemma entry_nested_ind (P : entry → Prop) :
  (∀ name, P (File name)) →
  (∀ name es, Forall P es → P (Dir name es)) →
  ∀ e, P e.
Proof.
  intros Hfile Hdir. fix IH 1. intros [name|name es]; [apply Hfile|].
  apply Hdir. induction es as [|e es IHes]; constructor; [apply IH | apply IHes].
Qed.

Lemma walk_entry_walked e : ∀ top p,
  (∃ dirs files, In (p, dirs, files) (walk_entry top e)) ↔
  (∃ name sub, e = Dir name sub ∧ walked (path_join top name) sub p).
Proof.
  induction e as [name|name es IH] using entry_nested_ind; intros top p.
  - simpl. split; [intros (? & ? & []) | intros (? & ? & [=] & _)].
  - rewrite Forall_forall in IH. simpl. split.
    + intros (dirs & files & [Heq | Hin]).
      * injection Heq as <- _ _. exists name, es. split; [done | constructor].
      * apply in_flat_map in Hin as (e' & He' & Hin).
        apply list_elem_of_In in He'.
        destruct (proj1 (IH e' He' (path_join top name) p))
          as (name' & sub' & -> & Hw); [eauto|].
        exists name, es. split; [done|]. by eapply walked_sub.
    + intros (name0 & sub0 & [= <- <-] & Hw).
      inversion Hw as [|? ? name' sub' ? He' Hw']; subst.
      * eauto.
      * destruct (proj2 (IH _ He' (path_join top name) p))
          as (dirs & files & Hin); [eauto|].
        exists dirs, files. right. apply in_flat_map.
        exists (Dir name' sub'). split; [by apply list_elem_of_In | done].
Qed.

Lemma walk_walked top es p :
  (∃ dirs files, In (p, dirs, files) (walk top es)) ↔ walked top es p.
Proof.
  unfold walk. split.
  - intros (dirs & files & [Heq | Hin]).
    + injection Heq as <- _ _. constructor.
    + apply in_flat_map in Hin as (e & He & Hin).
      destruct (proj1 (walk_entry_walked e top p))
        as (name & sub & -> & Hw); [eauto|].
      apply list_elem_of_In in He. by eapply walked_sub.
  - inversion 1 as [|? ? name sub ? He Hw]; subst.
    + do 2 eexists. by left.
    + destruct (proj2 (walk_entry_walked (Dir name sub) top p))
        as (dirs & files & Hin); [eauto|].
      exists dirs, files. right. apply in_flat_map.
      exists (Dir name sub). split; [by apply list_elem_of_In | done].
Qed.

Lemma article_exists_loop_true article_id triples :
  article_exists_loop article_id triples = true ↔
  ∃ root dirs files,
    In (root, dirs, files) triples ∧ contains article_id root = true.
Proof.
  induction triples as [|[[root dirs] files] rest IH]; simpl.
  - split; [done | intros (? & ? & ? & [] & _)].
  - destruct (contains article_id root) eqn:Hc.
    + split; [|done]. intros _. exists root, dirs, files. auto.
    + rewrite IH. split.
      * intros (r & d & f & Hin & H). exists r, d, f. auto.
      * intros (r & d & f & [Heq | Hin] & H); [congruence | eauto 6].
Qed.

(** C1, as amended: the check always answers and leaves the state as it
    was; it answers true exactly when the identifier is a substring of the
    path of a directory the walk visits: the output root itself or a
    directory below it, under the path joined from the root. Names of files
    are not looked at, and a root that cannot be listed gives false. *)
Theorem article_exists_iff_in_walked_path {W} (ext : Externals W)
    (article_id output_dir : str) (s : state W) :
  ∃ b, article_exists ext article_id output_dir s = (Returns b, s) ∧
       (b = true ↔
        ∃ es p, listing ext (world s) output_dir = Some es ∧
                walked output_dir es p ∧
                ∃ l r, p = l ++ article_id ++ r).
Proof.
  rewrite article_exists_reads_only. eexists. split; [done|].
  destruct (listing ext (world s) output_dir) as [es|].
  - rewrite article_exists_loop_true. split.
    + intros (root & dirs & files & Hin & Hc).
      exists es, root. split; [done|]. split.
      * apply walk_walked. eauto.
      * by apply contains_spec.
    + intros (es' & p & [= <-] & Hw & Hc).
      apply walk_walked in Hw as (dirs & files & Hin).
      exists p, dirs, files. split; [done|]. by apply contains_spec.
  - split; [done | intros (? & ? & [=] & _)].
Qed.

(** C1 as stated fails: under the output root lies a file whose name holds
    the identifier 67890, and the check answers false. *)
Lemma article_exists_ignores_file_names :
  listing demo_ok (world demo_start) demo_output_dir = Some demo_tree ∧
  below demo_tree (File (lit "67890.md")) ∧
  contains (lit "67890") (entry_name (File (lit "67890.md"))) = true ∧
  article_exists demo_ok (lit "67890") demo_output_dir demo_start
    = (Returns false, demo_start).
Proof.
  split; [by vm_compute|]. split; [|by vm_compute].
  apply below_here. apply elem_of_cons. right. apply elem_of_cons. by left.
Qed.

(** The directory of article 12345 is found through its path. *)
Lemma article_exists_iff_in_walked_path_witness :
  article_exists demo_ok (lit "12345") demo_output_dir demo_start
    = (Returns true, demo_start).
Proof.
  destruct (article_exists_iff_in_walked_path demo_ok (lit "12345")
              demo_output_dir demo_start) as (b & Hb & Hiff).
  rewrite Hb. f_equal. f_equal. apply Hiff.
  exists demo_tree,
    (path_join demo_output_dir (lit "2024-01-01_title_12345")).
  split; [by vm_compute|]. split.
  - eapply walked_sub; [|apply walked_top]. apply elem_of_cons. by left.
  - exists (lit "zhihu/markdown/tech/2024-01-01_title_"), []. by vm_compute.
Defined.

(** In the other direction, the path of the output root counts: the
    identifier [tech] is in no name below the root, and the check answers
    true. *)
Lemma article_exists_matches_root_path :
  article_exists demo_ok (lit "tech") demo_output_dir demo_start
    = (Returns true, demo_start) ∧
  ∀ es e, listing demo_ok (world demo_start) demo_output_dir = Some es →
          below es e → contains (lit "tech") (entry_name e) = false.
Proof.
  split; [by vm_compute|].
  intros es e Hes Hb. vm_compute in Hes. injection Hes as <-.
  inversion Hb as [? ? He | ? name sub ? Hd Hsub]; subst.
  - repeat (apply elem_of_cons in He as [-> | He]; [by vm_compute|]).
    by apply elem_of_nil in He.
  - repeat (apply elem_of_cons in Hd as [[=] | Hd]; subst).
    + inversion Hsub as [? ? He | ? name' sub' ? Hd' _]; subst.
      * repeat (apply elem_of_cons in He as [-> | He]; [by vm_compute|]).
        by apply elem_of_nil in He.
      * repeat (apply elem_of_cons in Hd' as [[=] | Hd']).
        by apply elem_of_nil in Hd'.
    + by apply elem_of_nil in Hd.
Qed.

(** ** Aggregation of the outcomes *)

Lemma count_results_values {W} (tasks : list (result (str * bool * option str)))
    (t t' : tally) (s s' : state W) :
  count_results tasks t s = (Returns t', s') →
  s' = s ∧ ∃ values, tasks = map Returns values ∧
                      t' = fold_left count_result values t.
Proof.
  revert t; induction tasks as [|[r|e] tasks IH]; intros t; simpl.
  - unfold ret. intros [= <- <-]. split; [done|]. by exists [].
  - intros (-> & values & -> & ->)%IH. split; [done|]. by exists (r :: values).
  - unfold raise. intros [=].
Qed.

(** What the loop keeps true of the running totals. *)
Lemma fold_count_result values : ∀ sc fc kc failed sc' fc' kc' failed',
  fold_left count_result values (sc, fc, kc, failed) = (sc', fc', kc', failed') →
  sc' + fc' + kc' = sc + fc + kc + length values ∧
  length failed' + fc = length failed + fc' ∧
  ∀ url reason, (url, reason) ∈ failed' →
    (url, reason) ∈ failed ∨ (url, false, reason) ∈ values.
Proof.
  induction values as [|[[url success] error] values IH];
    intros sc fc kc failed sc' fc' kc' failed'; simpl.
  - intros [= <- <- <- <-]. repeat split; [lia | auto].
  - destruct success; [case_bool_decide|]; intros Hf; apply IH in Hf
      as (Hsum & Hlen & Hin).
    1,2: repeat split; [lia | lia |];
      intros u r [?|?]%Hin; [by left | right; by apply elem_of_cons; right].
    rewrite length_app in Hlen. simpl in Hlen. repeat split; [lia | lia |].
    intros u r [[?|Hnew]%elem_of_app|?]%Hin.
    + by left.
    + apply list_elem_of_singleton in Hnew as [= -> ->].
      right. apply elem_of_cons. by left.
    + right. apply elem_of_cons. by right.
Qed.


(** [process_urls] returns when the pool yields its items and none of them
    is an exception. *)
Lemma process_urls_returns {W} (ext : Externals W) (urls : list str)
    (cookies output_dir : str) (s s2 : state W) tasks :
  pool_imap_unordered ext
    (λ url, process_single_url ext url cookies output_dir) urls
    (State (world s) (calls s ++ [PoolCall urls])) = (Returns tasks, s2) →
  Forall (λ r, ∃ value, r = Returns value) tasks →
  ∃ t, process_urls ext urls cookies output_dir s = (Returns t, s2).
Proof.
  intros Hrun Hall. unfold process_urls, bind at 1, record. simpl.
  unfold bind at 1. rewrite Hrun. clear Hrun.
  generalize (0, 0, 0, @nil (str * option str)).
  induction Hall as [|r tasks [value ->] _ IH]; intros t; simpl.
  - by exists t.
  - apply IH.
Qed.

Lemma demo_pool_runs_each_once {W T} (f : str → M W T) urls : ∀ s tasks s',
  demo_pool f urls s = (Returns tasks, s') →
  ∃ runs, tasks ≡ₚ runs ∧
          Forall2 (λ url r, ∃ s1 s2, f url s1 = (r, s2)) urls runs.
Proof.
  induction urls as [|url urls IH]; intros s tasks s'; simpl.
  - unfold ret. intros [= <- <-]. exists []. split; [done | constructor].
  - destruct (f url s) as [r s1] eqn:Hf.
    destruct (demo_pool f urls s1) as [[items|e] s2] eqn:Hrest; [|done].
    intros [= <- <-]. apply IH in Hrest as (runs & Hperm & Hruns).
    exists (r :: runs). split.
    + rewrite <- Hperm. symmetry. apply Permutation_cons_append.
    + constructor; eauto.
Qed.

Lemma demo_externals_pool construct judge :
  pool_runs_each_once (demo_externals construct judge).
Proof. intros T f urls s tasks s'. apply demo_pool_runs_each_once. Qed.



(** Fault isolation: the failure of the fetch unit on one URL is one
    failure in the totals, and the other URLs have their outcomes. *)
Lemma process_urls_isolates_failure :
  let bad := lit "https://www.zhihu.com/question/1/answer/67890" in
  (process_urls (demo_failing_on bad) demo_urls (lit "z_c0=token")
     demo_output_dir demo_start).1
    = Returns (0, 2, 1, [(bad, Some (lit "HTTP 403"));
                         (lit "https://example.com/about",
                          Some (lit "Invalid URL format"))]).
Proof. by vm_compute. Qed.

(** ** Start of [main] *)

(** The output directory of a URL file is named after the file without its
    suffix, as [pathlib] joins it: for the file [..txt] the stem is [.] and
    the output directory is [EXTRACTED_DIR] itself. *)
Lemma output_dir_of_url_file :
  path_child EXTRACTED_DIR (stem (lit "tech.txt")) = lit "zhihu/markdown/tech" ∧
  path_child EXTRACTED_DIR (stem (lit "..txt")) = lit "zhihu/markdown".
Proof. by vm_compute. Qed.

Lemma lift_keeps_calls {W A} (op : W → result A * W) : keeps_calls (lift op).
Proof.
  intros s r s'. unfold lift. destruct (op (world s)). by intros [= <- <-].
Qed.

Lemma observe_keeps_calls {W A} (op : W → result A) : keeps_calls (observe op).
Proof. intros s r s'. unfold observe. by intros [= <- <-]. Qed.

Lemma ret_keeps_calls {W A} (a : A) : keeps_calls (@ret W A a).
Proof. intros s r s'. unfold ret. by intros [= <- <-]. Qed.

Lemma bind_keeps_calls {W A B} (m : M W A) (k : A → M W B) :
  keeps_calls m → (∀ a, keeps_calls (k a)) → keeps_calls (bind m k).
Proof.
  intros Hm Hk s r s'. unfold bind.
  destruct (m s) as [[a|e] s1] eqn:H1.
  - intros H2. rewrite (Hk _ _ _ _ H2). eauto.
  - intros [= <- <-]. eauto.
Qed.

Create HintDb keeps.
#[local] Hint Resolve lift_keeps_calls observe_keeps_calls ret_keeps_calls
  bind_keeps_calls : keeps.

Lemma setup_directories_keeps_calls {W} (ext : Externals W) :
  keeps_calls (setup_directories ext).
Proof. unfold setup_directories. auto 10 with keeps. Qed.

Lemma cleanup_temp_files_keeps_calls {W} (ext : Externals W) :
  keeps_calls (cleanup_temp_files ext).
Proof.
  unfold cleanup_temp_files. apply bind_keeps_calls; [auto with keeps|].
  intros []; auto 10 with keeps.
Qed.

(** C9: once the directories are set up, [main] ends with [sys.exit(1)],
    a non-zero exit status, when the cookies file is absent, when its text
    is empty after trimming, and when the cookies are read and no URL list
    is found. No call of the pool or of the fetch unit has been made by
    then. *)
Theorem main_fails_fast {W} (ext : Externals W) (s s1 : state W) :
  (setup_directories ext ;; cleanup_temp_files ext) s = (Returns tt, s1) →
  path_exists ext (world s1) COOKIES_FILE = false ∨
  (path_exists ext (world s1) COOKIES_FILE = true ∧
   ∃ text, read_text ext (world s1) COOKIES_FILE = Returns text ∧
           (strip text = [] ∨ glob_txt ext (world s1) = [])) →
  main ext s = (Raises (SystemExit 1), s1) ∧
  exit_status (main ext s).1 ≠ 0%Z ∧
  calls s1 = calls s.
Proof.
  intros Hstart Hcase.
  assert (Hcalls : calls s1 = calls s).
  { revert Hstart. apply bind_keeps_calls.
    - apply setup_directories_keeps_calls.
    - intros _. apply cleanup_temp_files_keeps_calls. }
  assert (Hmain : main ext s = (Raises (SystemExit 1), s1)).
  { unfold main. unfold bind at 1. unfold bind at 1 in Hstart.
    destruct (setup_directories ext s) as [[[]|e] s0]; [|done].
    unfold bind at 1. rewrite Hstart.
    unfold read_cookies_from_file, get_url_files, observe, bind, sys_exit,
      raise, ret.
    destruct Hcase as [Hp | (Hp & text & Ht & Hrest)];
      rewrite Hp; simpl; [done|].
    rewrite Ht. case_bool_decide; [done|].
    destruct Hrest as [? | Hg]; [done|]. by rewrite Hg. }
  rewrite Hmain. done.
Qed.

Lemma main_fails_fast_witness :
  path_exists demo_ok (world demo_no_cookies) COOKIES_FILE = false ∧
  main demo_ok demo_no_cookies = (Raises (SystemExit 1), demo_no_cookies) ∧
  exit_status (main demo_ok demo_no_cookies).1 ≠ 0%Z.
Proof.
  split; [by vm_compute|].
  destruct (main_fails_fast demo_ok demo_no_cookies demo_no_cookies)
    as (Hmain & Hstatus & _).
  - by vm_compute.
  - left. by vm_compute.
  - split; [exact Hmain | exact Hstatus].
Defined.

(** The two other ways not to start, and a start that goes through. *)
Lemma main_exits_on_blank_cookies :
  main demo_ok demo_blank_cookies = (Raises (SystemExit 1), demo_blank_cookies).
Proof. by vm_compute. Qed.

Lemma main_exits_without_url_files :
  main demo_ok demo_no_url_files = (Raises (SystemExit 1), demo_no_url_files).
Proof. by vm_compute. Qed.

Lemma main_runs_the_batch :
  main demo_ok demo_start =
    (Returns tt,
     State (world demo_start)
       [PoolCall demo_urls;
        ParserCall (lit "z_c0=token") TEMP_DIR demo_output_dir;
        JudgeCall (lit "https://www.zhihu.com/question/1/answer/67890")]).
Proof. by vm_compute. Qed.

(** ** Extraction and de-duplication *)

(** The body of the loop adds what the two rules offer for the tag. *)
Lemma visit_tag_offered st tag :
  visit_tag st tag =
    match offered tag with
    | Some url => add_unseen url st
    | None => st
    end.
Proof.
  destruct tag as [[text|name attrs contents] siblings]; [done|].
  unfold visit_tag, offered, rule_meta, rule_title_link.
  repeat (case_bool_decide || case_decide || simpl);
    try done; try (destruct (is_date_meta _) eqn:?; naive_solver);
    naive_solver.
Qed.

Lemma fold_visit_tag tags : ∀ seen out,
  fold_left visit_tag tags (seen, out) =
    (list_to_set (omap offered tags) ∪ seen,
     out ++ new_urls seen (omap offered tags)).
Proof.
  induction tags as [|tag tags IH]; intros seen out; simpl.
  - f_equal; [set_solver | by rewrite app_nil_r].
  - rewrite visit_tag_offered. destruct (offered tag) as [url|]; [|apply IH].
    simpl. destruct (decide (url ∈ seen)).
    + rewrite IH. f_equal. set_solver.
    + rewrite IH, <- app_assoc. f_equal. set_solver.
Qed.

Lemma extract_urls_from_soup_new soup seen :
  extract_urls_from_soup soup seen =
    (new_urls seen (offered_urls soup),
     list_to_set (offered_urls soup) ∪ seen).
Proof. unfold extract_urls_from_soup. by rewrite fold_visit_tag. Qed.

Lemma new_urls_app l1 : ∀ seen l2,
  new_urls seen (l1 ++ l2) =
    new_urls seen l1 ++ new_urls (list_to_set l1 ∪ seen) l2.
Proof.
  induction l1 as [|x l1 IH]; intros seen l2; simpl.
  - f_equal. set_solver.
  - destruct (decide (x ∈ seen)) as [Hx|Hx]; rewrite IH.
    + replace ({[x]} ∪ list_to_set l1 ∪ seen)
        with (list_to_set l1 ∪ seen : gset str) by set_solver.
      done.
    + replace (list_to_set l1 ∪ ({[x]} ∪ seen))
        with ({[x]} ∪ list_to_set l1 ∪ seen : gset str) by set_solver.
      done.
Qed.

Lemma new_urls_first_occurrences l : ∀ seen,
  new_urls seen l = filter (λ y, y ∉ seen) (first_occurrences l).
Proof.
  induction l as [|x l IH]; intros seen; simpl; [done|].
  destruct (decide (x ∈ seen)).
  - rewrite filter_cons_False by auto. rewrite list_filter_filter, IH.
    apply list_filter_iff. intros y. split; [|tauto].
    intros Hy. split; [done | congruence].
  - rewrite filter_cons_True by done. f_equal.
    rewrite list_filter_filter, IH. apply list_filter_iff. set_solver.
Qed.

Lemma new_urls_empty l : new_urls ∅ l = first_occurrences l.
Proof.
  rewrite new_urls_first_occurrences.
  induction (first_occurrences l) as [|y k IHk]; [done|].
  rewrite filter_cons_True by set_solver. by f_equal.
Qed.

Lemma first_occurrences_elem l x : x ∈ first_occurrences l ↔ x ∈ l.
Proof.
  induction l as [|y l IH]; simpl; [done|].
  rewrite !elem_of_cons, list_elem_of_filter, IH.
  destruct (decide (x = y)); naive_solver.
Qed.

Lemma first_occurrences_NoDup l : NoDup (first_occurrences l).
Proof.
  induction l as [|x l IH]; simpl; constructor.
  - rewrite list_elem_of_filter. tauto.
  - by apply NoDup_filter.
Qed.


Lemma fold_merge_file cat names : ∀ seen merged,
  fold_left (merge_file cat) names (seen, merged) =
    (list_to_set (concat (map (λ fn, offered_urls (default [] (cat !! fn))) names))
       ∪ seen,
     merged ++
       new_urls seen
         (concat (map (λ fn, offered_urls (default [] (cat !! fn))) names))).
Proof.
  induction names as [|fn names IH]; intros seen merged; simpl.
  - f_equal; [set_solver | by rewrite app_nil_r].
  - rewrite extract_urls_from_soup_new, IH, new_urls_app, <- app_assoc.
    f_equal. rewrite list_to_set_app_L. set_solver.
Qed.

(** *** The order of the files *)








(** The category of the example: the files in processing order and the
    list emitted. *)
Lemma demo_category_urls :
  html_files demo_category = [lit "a.HTML"; lit "b.html"] ∧
  category_urls demo_category =
    [lit "https://zhuanlan.zhihu.com/p/1";
     lit "https://www.zhihu.com/question/1/answer/2";
     lit "https://www.zhihu.com/question/3/answer/4"].
Proof. by vm_compute. Qed.

(** * Further properties *)

(** ** [normalize] *)

Lemma strip_trimmed t : trimmed t → strip t = t.
Proof.
  intros Ht. pose proof (strip_unique [] t []) as H.
  simpl in H. rewrite app_nil_r in H. apply H; (done || constructor).
Qed.

Lemma strip_nil_iff s : strip s = [] ↔ blank s.
Proof.
  split.
  - intros Hs. destruct (strip_decompose s) as (l & r & Heq & Hl & Hr & _).
    rewrite Hs in Heq. rewrite Heq. simpl. by apply Forall_app.
  - intros Hs. pose proof (strip_unique s [] []) as H.
    simpl in H. rewrite app_nil_r in H. apply H; [done | constructor |].
    split; intros c t' Hc; [done | by destruct t'].
Qed.

Lemma trimmed_https t :
  trimmed t → t ≠ [] → trimmed (lit "https:" ++ t).
Proof.
  intros [_ Hlast] Hne. split.
  - intros c t' [= <- _]. done.
  - intros c t' Heq.
    destruct (exists_last Hne) as (t0 & c0 & ->).
    rewrite app_assoc in Heq. apply app_inj_tail in Heq as [_ ->].
    by apply (Hlast c t0).
Qed.

Lemma normalize_result_trimmed raw : trimmed (normalize raw).
Proof.
  unfold normalize.
  destruct (strip_decompose raw) as (_ & _ & _ & _ & _ & Ht).
  destruct (startswith (lit "//") (strip raw)) eqn:Hs; [|done].
  apply trimmed_https; [done|]. by destruct (strip raw).
Qed.

(** X1: normalizing a normalized URL changes nothing. *)
Theorem normalize_idempotent (raw : str) :
  normalize (normalize raw) = normalize raw.
Proof.
  pose proof (normalize_result_trimmed raw) as Ht.
  unfold normalize at 1. rewrite (strip_trimmed _ Ht).
  by rewrite normalize_not_scheme_relative.
Qed.

Lemma normalize_nil_iff raw : normalize raw = [] ↔ blank raw.
Proof.
  rewrite <- strip_nil_iff. unfold normalize.
  destruct (startswith (lit "//") (strip raw)) eqn:Hs; [|done].
  split; [done|]. intros Hnil. by rewrite Hnil in Hs.
Qed.

(** X2: a normalized URL has no whitespace at either end and does not
    start with [//]; it is empty exactly when the raw string is all
    whitespace. *)
Theorem normalize_result_invariant (raw : str) :
  trimmed (normalize raw) ∧
  startswith (lit "//") (normalize raw) = false ∧
  (normalize raw = [] ↔ blank raw).
Proof.
  split; [apply normalize_result_trimmed|].
  split; [apply normalize_not_scheme_relative | apply normalize_nil_iff].
Qed.

(** ** Identifiers *)

(** The last piece of a split is an end of the string. *)
Lemma split_from_final_suffix sep : sep ≠ [] → ∀ fuel s cur,
  length s < fuel →
  ∃ pre, rev cur ++ s = pre ++ final (split_from fuel sep s cur).
Proof.
  intros Hsep. induction fuel as [|fuel IH]; intros s cur Hlen; [lia|].
  destruct s as [|c s]; simpl.
  - exists []. simpl. by rewrite app_nil_r.
  - destruct (strip_prefix sep (c :: s)) as [rest|] eqn:Hp.
    + rewrite final_cons by apply split_from_nonempty.
      apply strip_prefix_spec in Hp.
      destruct (IH rest []) as [pre Hpre].
      { apply (f_equal (@length N)) in Hp. rewrite length_app in Hp.
        destruct sep; [congruence|]. simpl in *. lia. }
      exists (rev cur ++ sep ++ pre). simpl in Hpre.
      rewrite Hp, <- !app_assoc. do 2 f_equal. exact Hpre.
    + destruct (IH s (c :: cur)) as [pre Hpre]; [simpl in Hlen; lia|].
      exists pre. rewrite <- Hpre. simpl. by rewrite <- app_assoc.
Qed.

Lemma split_final_suffix sep s :
  sep ≠ [] → ∃ pre, s = pre ++ final (split sep s).
Proof.
  intros Hsep. destruct (split_from_final_suffix sep Hsep (S (length s)) s [])
    as [pre Hpre]; [lia|]. by exists pre.
Qed.

Lemma get_article_id_piece url article_id :
  get_article_id url = Some article_id →
  ∃ sh, recognized url = Some sh ∧
        article_id = first (split (lit "/") (final (split (marker sh) url))).
Proof.
  rewrite get_article_id_by_shape.
  destruct (recognized url) as [sh|]; [|done].
  intros [= <-]. eauto.
Qed.

(** X3: an identifier holds no slash. *)
Theorem get_article_id_no_slash (url article_id : str) :
  get_article_id url = Some article_id → 47%N ∉ article_id.
Proof.
  intros (sh & _ & ->)%get_article_id_piece.
  apply (first_split_prefix 47%N).
Qed.

Lemma get_article_id_no_slash_witness :
  get_article_id (lit "https://zhuanlan.zhihu.com/p/12345/edit")
    = Some (lit "12345") ∧
  47%N ∉ lit "12345".
Proof.
  assert (H : get_article_id (lit "https://zhuanlan.zhihu.com/p/12345/edit")
              = Some (lit "12345")) by (by vm_compute).
  split; [exact H|]. exact (get_article_id_no_slash _ _ H).
Defined.

(** X4: an identifier is a piece of the URL it comes from, and it runs up
    to the end of the URL or to a slash. *)
Theorem get_article_id_within_url (url article_id : str) :
  get_article_id url = Some article_id →
  ∃ before after,
    url = before ++ article_id ++ after ∧
    (after = [] ∨ ∃ rest, after = 47%N :: rest).
Proof.
  intros (sh & _ & ->)%get_article_id_piece.
  destruct (split_final_suffix (marker sh) url) as [pre Hpre];
    [by destruct sh|].
  destruct (first_split_prefix 47%N (final (split (marker sh) url)))
    as (_ & r & Hr & Hend).
  exists pre, r. split; [|done].
  rewrite Hpre at 1. f_equal. exact Hr.
Qed.

Lemma get_article_id_within_url_witness :
  get_article_id (lit "https://zhuanlan.zhihu.com/p/12345/edit")
    = Some (lit "12345") ∧
  ∃ before after,
    lit "https://zhuanlan.zhihu.com/p/12345/edit"
      = before ++ lit "12345" ++ after ∧
    (after = [] ∨ ∃ rest, after = 47%N :: rest).
Proof.
  assert (H : get_article_id (lit "https://zhuanlan.zhihu.com/p/12345/edit")
              = Some (lit "12345")) by (by vm_compute).
  split; [exact H|]. exact (get_article_id_within_url _ _ H).
Defined.

(** X5: for a URL of a recognized shape, the identifier is what stands
    between the last marker of that shape and the next slash (or the end of
    the URL). The shapes are tried in the order article, answer, video,
    column, so a URL that holds the article marker is split at it whatever
    else it holds. *)
Theorem get_article_id_between_marker_and_slash
    (url before article_id after : str) (sh : shape) :
  recognized url = Some sh →
  url = before ++ marker sh ++ article_id ++ after →
  47%N ∉ article_id →
  after = [] ∨ (∃ rest, after = 47%N :: rest) →
  contains (marker sh) (drop 1 (marker sh) ++ article_id ++ after) = false →
  get_article_id url = Some article_id ∧
  (contains (lit "zhuanlan.zhihu.com/p/") url = true → sh = Article).
Proof.
  intros Hsh Hurl Hid Hafter Hlast. split.
  - by eapply get_article_id_after_marker.
  - intros Hart. unfold recognized in Hsh. rewrite Hart in Hsh. congruence.
Qed.

Lemma get_article_id_between_marker_and_slash_witness :
  let url := lit "https://zhuanlan.zhihu.com/p/4455/zvideo/99" in
  (recognized url = Some Article ∧
   url = lit "https://" ++ marker Article ++ lit "4455" ++ lit "/zvideo/99") ∧
  get_article_id url = Some (lit "4455").
Proof.
  intros url. split; [by vm_compute|].
  refine (proj1 (get_article_id_between_marker_and_slash url (lit "https://")
                   (lit "4455") (lit "/zvideo/99") Article _ _ _ _ _)).
  - by vm_compute.
  - by vm_compute.
  - apply (bool_decide_unpack _). by vm_compute.
  - right. by exists (lit "zvideo/99").
  - by vm_compute.
Defined.

(** ** Lines of a URL file *)

Lemma split_from_fuel sep : sep ≠ [] → ∀ fuel1 fuel2 s cur,
  length s < fuel1 → length s < fuel2 →
  split_from fuel1 sep s cur = split_from fuel2 sep s cur.
Proof.
  intros Hsep. induction fuel1 as [|fuel1 IH]; intros [|fuel2] s cur H1 H2;
    try lia.
  destruct s as [|c s]; simpl; [done|].
  destruct (strip_prefix sep (c :: s)) as [rest|] eqn:Hp.
  - f_equal. apply strip_prefix_spec in Hp.
    apply (f_equal (@length N)) in Hp. rewrite length_app in Hp.
    destruct sep; [congruence|]. simpl in *. apply IH; lia.
  - simpl in *. apply IH; lia.
Qed.

Lemma split_from_piece c t r : ∀ fuel cur,
  c ∉ t → length (t ++ c :: r) < fuel →
  split_from fuel [c] (t ++ c :: r) cur = (rev cur ++ t) :: split [c] r.
Proof.
  induction t as [|d t IH]; intros [|fuel] cur Hc Hlen; simpl in *; try lia.
  - rewrite N.eqb_refl, app_nil_r. f_equal.
    apply split_from_fuel; [done | lia | lia].
  - destruct (N.eqb_spec c d) as [->|_]; [set_solver|].
    rewrite IH; [| set_solver | lia]. simpl. by rewrite <- app_assoc.
Qed.

(** Splitting at a character cuts off what stands before its first
    occurrence. *)
Lemma split_piece c t r :
  c ∉ t → split [c] (t ++ c :: r) = t :: split [c] r.
Proof. intros Hc. unfold split at 1. rewrite split_from_piece; [done | done | lia]. Qed.

Lemma split_free c t : c ∉ t → split [c] t = [t].
Proof.
  intros Hc. unfold split.
  rewrite split_from_one_piece; [done | by apply contains_single | lia].
Qed.

(** No piece of a split at a character holds the character. *)
Lemma split_pieces_free c s : Forall (λ piece, c ∉ piece) (split [c] s).
Proof.
  remember (length s) as n eqn:Hn. revert s Hn.
  induction n as [n IH] using lt_wf_ind. intros s ->.
  destruct (decide (c ∈ s)) as [Hc|Hc].
  - apply list_elem_of_split_l in Hc as (t & r & -> & Ht).
    rewrite split_piece by done. constructor; [done|].
    apply (IH (length r)); [|done]. rewrite length_app. simpl. lia.
  - rewrite split_free by done. by constructor.
Qed.

Lemma strip_keeps_out c s : c ∉ s → c ∉ strip s.
Proof.
  intros Hc Hin. apply Hc.
  destruct (strip_decompose s) as (l & r & Heq & _).
  rewrite Heq. set_solver.
Qed.

Lemma strip_result_trimmed s : trimmed (strip s).
Proof. by destruct (strip_decompose s) as (_ & _ & _ & _ & _ & Ht). Qed.

(** X6: every entry that [read_urls_from_file] returns is non-empty, has no
    whitespace at either end and holds no line break; the state is left as
    it was. *)
Theorem read_urls_from_file_entries {W} (ext : Externals W)
    (file_path : str) (s s' : state W) (urls : list str) :
  read_urls_from_file ext file_path s = (Returns urls, s') →
  s' = s ∧
  Forall (λ url, url ≠ [] ∧ trimmed url ∧ 10%N ∉ url) urls.
Proof.
  unfold read_urls_from_file, bind, observe, ret.
  destruct (read_text ext (world s) file_path) as [text|e]; [|done].
  intros [= <- <-]. split; [done|].
  apply Forall_fmap, Forall_forall. intros line Hline.
  apply list_elem_of_filter in Hline as [Hne Hline]. simpl.
  split; [done|]. split; [apply strip_result_trimmed|].
  apply strip_keeps_out.
  pose proof (split_pieces_free 10%N text) as Hfree.
  rewrite Forall_forall in Hfree. by apply Hfree.
Qed.

Lemma read_urls_from_file_entries_witness :
  read_urls_from_file demo_ok (path_join URLS_DIR (lit "tech.txt")) demo_start
    = (Returns demo_urls, demo_start) ∧
  Forall (λ url, url ≠ [] ∧ trimmed url ∧ 10%N ∉ url) demo_urls.
Proof.
  assert (H : read_urls_from_file demo_ok (path_join URLS_DIR (lit "tech.txt"))
                demo_start = (Returns demo_urls, demo_start))
    by (by vm_compute).
  split; [exact H|].
  exact (proj2 (read_urls_from_file_entries demo_ok _ _ _ _ H)).
Defined.

(** X7: when [read_cookies_from_file] returns, the file exists, the
    cookies are its text without the whitespace at either end, and they are
    not empty; the state is left as it was. *)
Theorem read_cookies_from_file_returns {W} (ext : Externals W)
    (file_path cookies : str) (s s' : state W) :
  read_cookies_from_file ext file_path s = (Returns cookies, s') →
  s' = s ∧
  path_exists ext (world s) file_path = true ∧
  (∃ text, read_text ext (world s) file_path = Returns text ∧
           cookies = strip text) ∧
  cookies ≠ [] ∧ trimmed cookies.
Proof.
  unfold read_cookies_from_file, bind, observe, sys_exit, raise, ret.
  destruct (path_exists ext (world s) file_path); simpl; [|done].
  destruct (read_text ext (world s) file_path) as [text|e]; [|done].
  case_bool_decide as Hne; [done|]. intros [= <- <-].
  repeat split; [eauto | done | apply strip_result_trimmed
                | apply strip_result_trimmed].
Qed.

Lemma read_cookies_from_file_returns_witness :
  read_cookies_from_file demo_ok COOKIES_FILE demo_start
    = (Returns (lit "z_c0=token"), demo_start) ∧
  lit "z_c0=token" ≠ [].
Proof.
  assert (H : read_cookies_from_file demo_ok COOKIES_FILE demo_start
              = (Returns (lit "z_c0=token"), demo_start)) by (by vm_compute).
  split; [exact H|].
  exact (proj1 (proj2 (proj2 (proj2
           (read_cookies_from_file_returns demo_ok _ _ _ _ H))))).
Defined.

(** ** The URLs of a category *)

Lemma offered_normalized tag url :
  offered tag = Some url →
  ∃ raw, raw ≠ [] ∧ trimmed raw ∧ url = normalize raw.
Proof.
  destruct tag as [[text|name attrs contents] siblings]; [done|].
  unfold offered, rule_meta, rule_title_link.
  repeat case_decide; intros [= <-]; eexists;
    (split; [|split; [apply strip_result_trimmed | done]]); naive_solver.
Qed.

Lemma normalize_nonempty raw : raw ≠ [] → trimmed raw → normalize raw ≠ [].
Proof.
  intros Hne [Hhead _] Hnil.
  apply normalize_nil_iff in Hnil.
  destruct raw as [|c raw]; [done|]. inversion Hnil as [|? ? Hc _]; subst.
  by rewrite (Hhead c raw) in Hc.
Qed.

Lemma category_urls_eq (cat : gmap str (list PageElement)) :
  category_urls cat = first_occurrences (offered_in_order cat).
Proof.
  unfold category_urls, offered_in_order. rewrite fold_merge_file. simpl.
  apply new_urls_empty.
Qed.

Lemma category_urls_in_form (cat : gmap str (list PageElement)) (url : str) :
  url ∈ category_urls cat →
  url ≠ [] ∧ trimmed url ∧ startswith (lit "//") url = false.
Proof.
  rewrite category_urls_eq, first_occurrences_elem. intros Hoff.
  unfold offered_in_order in Hoff.
  apply list_elem_of_In, in_concat in Hoff as (urls & Hurls & Hurl).
  apply in_map_iff in Hurls as (fn & <- & _).
  apply list_elem_of_In in Hurl. unfold offered_urls in Hurl.
  apply list_elem_of_omap in Hurl as (tag & _ & Htag).
  apply offered_normalized in Htag as (raw & Hne & Ht & ->).
  split; [by apply normalize_nonempty|].
  split; [apply normalize_result_trimmed | apply normalize_not_scheme_relative].
Qed.



Lemma lines_of_text (urls : list str) :
  Forall (λ url, 10%N ∉ url) urls →
  split newline (concat (map (λ url, url ++ newline) urls)) = urls ++ [[]].
Proof.
  induction 1 as [|url urls Hurl _ IH]; [done|].
  change (split [10%N]
            ((url ++ [10%N]) ++ concat (map (λ url, url ++ newline) urls))
          = url :: (urls ++ [[]])).
  rewrite <- app_assoc.
  change (split [10%N]
            (url ++ 10%N :: concat (map (λ url, url ++ newline) urls))
          = url :: (urls ++ [[]])).
  rewrite split_piece by done. f_equal. exact IH.
Qed.

Lemma trimmed_lines_kept (urls : list str) :
  Forall (λ url, url ≠ [] ∧ trimmed url ∧ 10%N ∉ url) urls →
  map strip (filter (λ line, strip line ≠ []) urls) = urls.
Proof.
  induction 1 as [|url urls (Hne & Ht & _) _ IH]; [done|].
  rewrite filter_cons_True by (by rewrite strip_trimmed).
  simpl. rewrite strip_trimmed by done. by rewrite IH.
Qed.

Lemma lines_round_trip (urls : list str) :
  Forall (λ url, url ≠ [] ∧ trimmed url ∧ 10%N ∉ url) urls →
  map strip
    (filter (λ line, strip line ≠ [])
       (split newline (concat (map (λ url, url ++ newline) urls)))) = urls.
Proof.
  intros Hall. rewrite lines_of_text.
  2:{ eapply Forall_impl; [exact Hall|]. naive_solver. }
  rewrite filter_app, map_app, trimmed_lines_kept by done.
  rewrite (filter_cons_False _ []) by (intros H; by apply H).
  rewrite filter_nil. simpl. by rewrite app_nil_r.
Qed.

(** X9: the file written for a category reads back, with
    [read_urls_from_file], as the list of URLs of the category, provided no
    URL holds a line break. *)
Theorem category_text_read_back {W} (ext : Externals W)
    (cat : gmap str (list PageElement)) (file_path : str) (s : state W) :
  (∀ url, url ∈ category_urls cat → 10%N ∉ url) →
  read_text ext (world s) file_path = Returns (category_text cat) →
  read_urls_from_file ext file_path s = (Returns (category_urls cat), s).
Proof.
  intros Hline Hread.
  unfold read_urls_from_file, bind, observe, ret. rewrite Hread.
  unfold category_text. rewrite lines_round_trip; [done|].
  apply Forall_forall. intros url Hurl.
  destruct (category_urls_in_form cat url Hurl) as (Hne & Ht & _).
  auto.
Qed.

Lemma category_text_read_back_witness :
  (∀ url, url ∈ category_urls demo_category → 10%N ∉ url) ∧
  read_urls_from_file demo_ok (path_join URLS_DIR (lit "tech.txt"))
    demo_after_extraction
    = (Returns (category_urls demo_category), demo_after_extraction).
Proof.
  assert (Hline : ∀ url, url ∈ category_urls demo_category → 10%N ∉ url).
  { intros url Hurl. vm_compute in Hurl.
    repeat (apply elem_of_cons in Hurl as [-> | Hurl];
            [apply (bool_decide_unpack _); by vm_compute|]).
    by apply elem_of_nil in Hurl. }
  split; [exact Hline|].
  apply (category_text_read_back demo_ok demo_category _ _ Hline).
  by vm_compute.
Defined.

(** ** One call of [extract_urls_from_soup] *)

Lemma new_urls_elem seen l url :
  url ∈ new_urls seen l ↔ url ∈ l ∧ url ∉ seen.
Proof.
  rewrite new_urls_first_occurrences, list_elem_of_filter,
    first_occurrences_elem. tauto.
Qed.

Lemma new_urls_all_seen (seen : gset str) l :
  (∀ url, url ∈ l → url ∈ seen) → new_urls seen l = [].
Proof.
  intros Hall. destruct (new_urls seen l) as [|url k] eqn:Hnew; [done|].
  assert (Hin : url ∈ new_urls seen l) by (rewrite Hnew; by left).
  apply new_urls_elem in Hin as [Hin Hout]. by apply Hall in Hin.
Qed.

(** X10: the list a call returns has no duplicate and holds exactly the
    URLs the document offers that were not seen before; the call leaves in
    the set what was seen before and what it returns. *)
Theorem extract_urls_from_soup_contract (soup : list PageElement)
    (seen : gset str) :
  NoDup (extract_urls_from_soup soup seen).1 ∧
  (∀ url, url ∈ (extract_urls_from_soup soup seen).1 ↔
          url ∈ offered_urls soup ∧ url ∉ seen) ∧
  (extract_urls_from_soup soup seen).2 =
    seen ∪ list_to_set (extract_urls_from_soup soup seen).1.
Proof.
  rewrite extract_urls_from_soup_new. simpl. split; [|split].
  - rewrite new_urls_first_occurrences.
    apply NoDup_filter, first_occurrences_NoDup.
  - intros url. apply new_urls_elem.
  - apply set_eq. intros url.
    rewrite !elem_of_union, !elem_of_list_to_set, new_urls_elem.
    destruct (decide (url ∈ seen)); tauto.
Qed.

(** X11: a second call on the same document, with the set the first call
    left, returns nothing and leaves the set as it is. *)
Theorem extract_urls_from_soup_again (soup : list PageElement)
    (seen : gset str) :
  extract_urls_from_soup soup (extract_urls_from_soup soup seen).2 =
    ([], (extract_urls_from_soup soup seen).2).
Proof.
  rewrite !extract_urls_from_soup_new. simpl. f_equal.
  - apply new_urls_all_seen. intros url Hurl.
    apply elem_of_union. left. by apply elem_of_list_to_set.
  - set_solver.
Qed.

Lemma skip_strings_app strs rest :
  Forall (λ e, ∃ text, e = NavigableString text) strs →
  skip_strings (strs ++ rest) = skip_strings rest.
Proof. induction 1 as [|e strs [text ->] _ IH]; [done | exact IH]. Qed.

(** X12: strings and comments that stand directly after a tag do not change
    what the loop does for it: the sibling looked at is the first that is a
    tag. *)
Theorem visit_tag_skips_strings (st : gset str * list str)
    (tag : PageElement) (strs rest : list PageElement) :
  Forall (λ e, ∃ text, e = NavigableString text) strs →
  visit_tag st (tag, strs ++ rest) = visit_tag st (tag, rest).
Proof.
  intros Hstrs. destruct tag as [text|name attrs contents]; [done|].
  unfold visit_tag. by rewrite skip_strings_app.
Qed.

Lemma visit_tag_skips_strings_witness :
  let url_meta :=
    Tag (lit "meta") {[ lit "itemprop" := lit "url";
                        lit "content" := lit "//zhuanlan.zhihu.com/p/1" ]} [] in
  let date_meta :=
    Tag (lit "meta") {[ lit "itemprop" := lit "dateModified" ]} [] in
  visit_tag (∅, [])
    (url_meta, [NavigableString newline; NavigableString (lit "<!-- c -->")]
               ++ [date_meta])
  = visit_tag (∅, []) (url_meta, [date_meta]) ∧
  (visit_tag (∅, []) (url_meta, [date_meta])).2
  = [lit "https://zhuanlan.zhihu.com/p/1"].
Proof.
  intros url_meta date_meta. split; [|by vm_compute].
  apply visit_tag_skips_strings. repeat constructor; eauto.
Defined.

(** ** The files of a category *)

(** X13: the files processed for a category are exactly the entries of its
    directory whose name ends with [.html] in any case of the letters, each
    once. *)
Theorem html_files_exactly (cat : gmap str (list PageElement)) :
  NoDup (html_files cat) ∧
  ∀ fn, fn ∈ html_files cat ↔
        is_Some (cat !! fn) ∧ endswith (lit ".html") (lower fn) = true.
Proof.
  unfold html_files, sorted. split.
  - rewrite merge_sort_Permutation. apply NoDup_filter.
    apply NoDup_fst_map_to_list.
  - intros fn. rewrite merge_sort_Permutation, list_elem_of_filter.
    unfold listdir. rewrite list_elem_of_fmap. split.
    + intros [Hhtml ([fn' soup] & -> & Hin)]. split; [|done].
      apply elem_of_map_to_list in Hin. simpl. eauto.
    + intros [[soup Hsoup] Hhtml]. split; [done|].
      exists (fn, soup). split; [done|]. by apply elem_of_map_to_list.
Qed.

(** ** The totals of a batch *)

Lemma fold_count_result_closed values : ∀ sc fc kc failed,
  fold_left count_result values (sc, fc, kc, failed) =
    (sc + length (successes values), fc + length (failures values),
     kc + length (skips values),
     failed ++ map (λ r, (r.1.1, r.2)) (failures values)).
Proof.
  unfold successes, failures, skips.
  induction values as [|[[url success] error] values IH];
    intros sc fc kc failed; simpl.
  - by rewrite !Nat.add_0_r, app_nil_r.
  - destruct success; [case_bool_decide as Herr|]; rewrite IH.
    + rewrite (filter_cons_False _ (url, true, error)) by naive_solver.
      rewrite (filter_cons_False _ (url, true, error)) by naive_solver.
      rewrite (filter_cons_True _ (url, true, error)) by naive_solver.
      simpl. repeat match goal with |- (_, _) = (_, _) => f_equal end; lia.
    + rewrite (filter_cons_True _ (url, true, error)) by naive_solver.
      rewrite (filter_cons_False _ (url, true, error)) by naive_solver.
      rewrite (filter_cons_False _ (url, true, error)) by naive_solver.
      simpl. repeat match goal with |- (_, _) = (_, _) => f_equal end; lia.
    + rewrite (filter_cons_False _ (url, false, error)) by naive_solver.
      rewrite (filter_cons_True _ (url, false, error)) by naive_solver.
      rewrite (filter_cons_False _ (url, false, error)) by naive_solver.
      simpl. rewrite <- app_assoc.
      repeat match goal with |- (_, _) = (_, _) => f_equal end; lia.
Qed.

Lemma count_results_Returns {W} (values : list (str * bool * option str)) :
  ∀ (t : tally) (s : state W),
  count_results (map Returns values) t s =
    (Returns (fold_left count_result values t), s).
Proof. induction values as [|r values IH]; intros t s; simpl; [done | apply IH]. Qed.

(** X14: over the outcomes the pool yields, the loop of [process_urls]
    counts the successes, the failures and the skipped ones, and lists the
    failures with their reasons in the order they were yielded. *)
Theorem count_results_by_kind {W} (values : list (str * bool * option str))
    (s : state W) :
  count_results (map Returns values) (0, 0, 0, []) s =
    (Returns (length (successes values), length (failures values),
              length (skips values),
              map (λ r, (r.1.1, r.2)) (failures values)), s).
Proof. by rewrite count_results_Returns, fold_count_result_closed. Qed.

(** X15: the order in which the pool yields the outcomes does not change
    the three counts, and changes the list of failed URLs by a
    rearrangement only. *)
Theorem count_results_any_order {W}
    (values values' : list (str * bool * option str)) (s : state W) :
  values ≡ₚ values' →
  ∃ sc fc kc failed failed',
    count_results (map Returns values) (0, 0, 0, []) s
      = (Returns (sc, fc, kc, failed), s) ∧
    count_results (map Returns values') (0, 0, 0, []) s
      = (Returns (sc, fc, kc, failed'), s) ∧
    failed ≡ₚ failed'.
Proof.
  intros Hperm. rewrite !count_results_Returns, !fold_count_result_closed.
  do 5 eexists. split; [done|]. simpl. split.
  - unfold successes, failures, skips. by rewrite Hperm.
  - unfold failures. apply Permutation_map. by rewrite Hperm.
Qed.

Lemma count_results_any_order_witness :
  let skipped := (lit "a", true, Some (lit "Article already exists")) in
  let failed := (lit "b", false, Some (lit "HTTP 403")) in
  let fetched := (lit "c", true, None) in
  [skipped; failed; fetched] ≡ₚ [fetched; failed; skipped] ∧
  ∃ sc fc kc l l',
    count_results (map Returns [skipped; failed; fetched]) (0, 0, 0, [])
      demo_start = (Returns (sc, fc, kc, l), demo_start) ∧
    count_results (map Returns [fetched; failed; skipped]) (0, 0, 0, [])
      demo_start = (Returns (sc, fc, kc, l'), demo_start) ∧
    l ≡ₚ l'.
Proof.
  intros skipped failed fetched.
  assert (Hperm : [skipped; failed; fetched] ≡ₚ [fetched; failed; skipped]).
  { exact (Permutation_rev [skipped; failed; fetched]). }
  split; [exact Hperm|].
  exact (count_results_any_order _ _ demo_start Hperm).
Defined.

Lemma count_results_Raises {W} (values : list (str * bool * option str))
    (e : exn) rest : ∀ (t : tally) (s : state W),
  count_results (map Returns values ++ Raises e :: rest) t s = (Raises e, s).
Proof. induction values as [|r values IH]; intros t s; simpl; [done | apply IH]. Qed.

(** X16: when the pool yields an exception among its items,
    [process_urls] raises the first one in the order yielded; the counts
    made so far are not returned. *)
Theorem process_urls_aborts_on_exception {W} (ext : Externals W)
    (urls : list str) (cookies output_dir : str) (s s2 : state W)
    (values : list (str * bool * option str)) (e : exn)
    (rest : list (result (str * bool * option str))) :
  pool_imap_unordered ext
    (λ url, process_single_url ext url cookies output_dir) urls
    (State (world s) (calls s ++ [PoolCall urls]))
    = (Returns (map Returns values ++ Raises e :: rest), s2) →
  process_urls ext urls cookies output_dir s = (Raises e, s2).
Proof.
  intros Hrun. unfold process_urls, bind at 1, record. simpl.
  unfold bind at 1. rewrite Hrun. apply count_results_Raises.
Qed.

Lemma process_urls_aborts_on_exception_witness :
  (process_urls demo_unbuildable demo_urls (lit "z_c0=token") demo_output_dir
     demo_start).1 = Raises (Exception (lit "cannot create temp dir")).
Proof.
  assert (Hrun : ∃ s2 rest,
    pool_imap_unordered demo_unbuildable
      (λ url, process_single_url demo_unbuildable url (lit "z_c0=token")
                demo_output_dir) demo_urls
      (State (world demo_start) (calls demo_start ++ [PoolCall demo_urls]))
    = (Returns (map Returns [] ++
                Raises (Exception (lit "cannot create temp dir")) :: rest), s2)).
  { do 2 eexists. by vm_compute. }
  destruct Hrun as (s2 & rest & Hrun).
  by rewrite (process_urls_aborts_on_exception demo_unbuildable demo_urls
                _ _ demo_start s2 [] _ rest Hrun).
Defined.

(** ** What one item does *)

(** X17: a run of [process_single_url] ends in one of three ways. It makes
    no call and leaves the state as it was, with the outcome of an invalid
    URL or of an article that exists. Or it calls the constructor of the
    parser, with the cookies, [TEMP_DIR] and the output directory, and the
    constructor raises. Or it calls the constructor and then [judge_type],
    once and for this URL, and the outcome is a success, a failure with a
    message, or an exception that is not of class [Exception]. *)
Theorem process_single_url_cases {W} (ext : Externals W)
    (url cookies output_dir : str) (s s' : state W)
    (r : result (str * bool * option str)) :
  process_single_url ext url cookies output_dir s = (r, s') →
  (s' = s ∧
   (r = Returns (url, false, Some (lit "Invalid URL format")) ∨
    r = Returns (url, true, Some (lit "Article already exists")))) ∨
  (calls s' = calls s ++ [ParserCall cookies TEMP_DIR output_dir] ∧
   ∃ e, r = Raises e) ∨
  (calls s' = calls s ++ [ParserCall cookies TEMP_DIR output_dir;
                          JudgeCall url] ∧
   (r = Returns (url, true, None) ∨
    (∃ message, r = Returns (url, false, Some message)) ∨
    (∃ e, r = Raises e ∧ ∀ message, e ≠ Exception message))).
Proof.
  unfold process_single_url.
  destruct (get_article_id url) as [[|c article_id]|].
  1,3: unfold ret; intros [= <- <-]; left; auto.
  destruct (article_exists_total ext (c :: article_id) output_dir s) as [b Hb].
  unfold bind at 1. rewrite Hb. destruct b.
  { unfold ret; intros [= <- <-]; left; auto. }
  unfold bind at 1, ZhihuParser, bind, record, lift. simpl.
  destruct (new_parser ext cookies false TEMP_DIR output_dir (world s))
    as [[parser|e0] w1].
  - unfold try_except_Exception, judge_type, bind, record, lift. simpl.
    destruct (parser_judge_type ext parser url w1)
      as [[[]|[message|code|message]] w2]; unfold ret;
      intros [= <- <-]; right; right; simpl; rewrite <- app_assoc;
      (split; [done|]); eauto 6.
  - intros [= <- <-]. right. left. simpl. eauto.
Qed.

Lemma process_single_url_cases_witness :
  let url := lit "https://www.zhihu.com/question/1/answer/67890" in
  ∃ s',
    process_single_url demo_ok url (lit "z_c0=token") demo_output_dir
      demo_start = (Returns (url, true, None), s') ∧
    calls s' = [ParserCall (lit "z_c0=token") TEMP_DIR demo_output_dir;
                JudgeCall url].
Proof.
  intros url. eexists. split; [by vm_compute|].
  match goal with |- calls ?s' = _ =>
    destruct (process_single_url_cases demo_ok url (lit "z_c0=token")
                demo_output_dir demo_start s' (Returns (url, true, None)))
      as [[_ [H|H]] | [[_ [e H]] | [Hcalls _]]]
  end; [by vm_compute | discriminate H | discriminate H | discriminate H
       | exact Hcalls].
Defined.

(** ** Directories that hold the identifier *)

Lemma path_join_ends a b : ∃ pre, path_join a b = pre ++ b.
Proof.
  unfold path_join.
  destruct (startswith (lit "/") b); [by exists []|].
  destruct (bool_decide (a = []) || endswith (lit "/") a).
  - by exists a.
  - exists (a ++ lit "/"). by rewrite <- app_assoc.
Qed.

Lemma below_dir_walked es e : below es e → ∀ top name sub,
  e = Dir name sub → ∃ p pre, walked top es p ∧ p = pre ++ name.
Proof.
  induction 1 as [es e Hin | es name' sub' e Hin Hbelow IH];
    intros top name sub ->.
  - destruct (path_join_ends top name) as [pre Hpre].
    exists (path_join top name), pre. split; [|done].
    eapply walked_sub; [exact Hin | apply walked_top].
  - destruct (IH (path_join top name') name sub eq_refl)
      as (p & pre & Hw & Hp).
    exists p, pre. split; [|done]. by eapply walked_sub.
Qed.

Lemma article_exists_true_for {W} (ext : Externals W)
    (article_id output_dir : str) (s : state W) (es : list entry) :
  listing ext (world s) output_dir = Some es →
  contains article_id output_dir = true ∨
  (∃ name sub, below es (Dir name sub) ∧ contains article_id name = true) →
  article_exists ext article_id output_dir s = (Returns true, s).
Proof.
  intros Hes Hcase. rewrite article_exists_reads_only, Hes. do 2 f_equal.
  apply article_exists_loop_true.
  destruct Hcase as [Hroot | (name & sub & Hbelow & Hname)].
  - destruct (proj2 (walk_walked output_dir es output_dir))
      as (dirs & files & Hin); [constructor|]. eauto 6.
  - destruct (below_dir_walked es _ Hbelow output_dir name sub eq_refl)
      as (p & pre & Hw & ->).
    apply walk_walked in Hw as (dirs & files & Hin).
    exists (pre ++ name), dirs, files. split; [done|].
    apply contains_spec in Hname as (l & r & ->).
    apply contains_spec. exists (pre ++ l), r. by rewrite <- !app_assoc.
Qed.

(** X18: the check answers true when the root can be listed and the
    identifier occurs in the path of the root itself, or in the name of a
    directory the walk enters ([Dir]: a directory that can be listed and is
    not a symbolic link), at any depth below the root. *)
Theorem article_exists_finds_directory {W} (ext : Externals W)
    (article_id output_dir : str) (s : state W) (es : list entry) :
  listing ext (world s) output_dir = Some es →
  contains article_id output_dir = true ∨
  (∃ name sub, below es (Dir name sub) ∧ contains article_id name = true) →
  article_exists ext article_id output_dir s = (Returns true, s).
Proof. apply article_exists_true_for. Qed.

Lemma article_exists_finds_directory_witness :
  below demo_tree (Dir (lit "2024-01-01_title_12345") [File (lit "index.md")]) ∧
  article_exists demo_ok (lit "12345") demo_output_dir demo_start
    = (Returns true, demo_start).
Proof.
  assert (Hb : below demo_tree
                 (Dir (lit "2024-01-01_title_12345") [File (lit "index.md")])).
  { apply below_here. apply elem_of_cons. by left. }
  split; [exact Hb|].
  apply (article_exists_finds_directory demo_ok _ _ _ demo_tree).
  - by vm_compute.
  - right. do 2 eexists. split; [exact Hb | by vm_compute].
Defined.

(** ** The totals of a run *)

Lemma process_urls_sum {W} (ext : Externals W) (urls : list str)
    (cookies output_dir : str) (s s' : state W) (t : tally) :
  pool_runs_each_once ext →
  process_urls ext urls cookies output_dir s = (Returns t, s') →
  t.1.1.1 + t.1.1.2 + t.1.2 = length urls.
Proof.
  intros Hpool. unfold process_urls, bind at 1, record. simpl.
  unfold bind at 1.
  destruct (pool_imap_unordered ext _ urls _) as [[tasks|e] s2] eqn:Hrun;
    [|done].
  intros (-> & values & -> & ->)%count_results_values.
  apply Hpool in Hrun as (runs & Hperm & Hruns).
  rewrite (Forall2_length _ _ _ Hruns), <- Hperm, length_map.
  destruct (fold_left count_result values (0, 0, 0, []))
    as [[[sc fc] kc] failed] eqn:Hfold.
  apply fold_count_result in Hfold as (Hsum & _). simpl. lia.
Qed.

(** X19: the three counts [process_url_file] returns for a URL file add up
    to the number of entries read from that file, over a pool that yields
    one result per URL. *)
Theorem process_url_file_counts {W} (ext : Externals W)
    (url_file cookies : str) (s s' : state W)
    (success_count failure_count skipped_count : nat) :
  pool_runs_each_once ext →
  process_url_file ext url_file cookies s =
    (Returns (success_count, failure_count, skipped_count), s') →
  ∃ s1 urls,
    read_urls_from_file ext (path_join URLS_DIR url_file) s1
      = (Returns urls, s1) ∧
    success_count + failure_count + skipped_count = length urls.
Proof.
  intros Hpool. unfold process_url_file. unfold bind at 1.
  destruct (lift (makedirs ext _) s) as [[[]|e] s1]; [|done].
  unfold bind at 1.
  destruct (read_urls_from_file ext (path_join URLS_DIR url_file) s1)
    as [[urls|e] s1'] eqn:Hread; [|done].
  assert (s1' = s1) as ->.
  { revert Hread. unfold read_urls_from_file, bind, observe, ret.
    destruct (read_text ext (world s1) _); by intros [= <- <-]. }
  unfold bind at 1.
  destruct (process_urls ext urls cookies _ s1) as [[t|e] s2] eqn:Hrun; [|done].
  apply (process_urls_sum ext) in Hrun; [|done].
  destruct t as [[[sc fc] kc] failed]. unfold ret. intros [= <- <- <- <-].
  exists s1, urls. done.
Qed.

Lemma process_url_file_counts_witness :
  ∃ s', process_url_file demo_ok (lit "tech.txt") (lit "z_c0=token") demo_start
          = (Returns (1, 1, 1), s') ∧
        ∃ s1 urls,
          read_urls_from_file demo_ok (path_join URLS_DIR (lit "tech.txt")) s1
            = (Returns urls, s1) ∧
          1 + 1 + 1 = length urls.
Proof.
  eexists. split; [by vm_compute|].
  eapply (process_url_file_counts demo_ok (lit "tech.txt") (lit "z_c0=token")
            demo_start _ 1 1 1 (demo_externals_pool _ _)).
  by vm_compute.
Defined.

(** X20: the totals of the loop of [main] are the starting totals plus, kind
    by kind, the counts of one run of [process_url_file] for each URL file,
    in the order of the files. *)
Theorem process_url_files_totals {W} (ext : Externals W)
    (url_files : list str) (cookies : str) :
  ∀ (totals totals' : nat * nat * nat) (s s' : state W),
  process_url_files ext url_files cookies totals s = (Returns totals', s') →
  ∃ counts : list (nat * nat * nat),
    Forall2 (λ url_file count,
               ∃ s1 s2, process_url_file ext url_file cookies s1
                        = (Returns count, s2)) url_files counts ∧
    totals'.1.1 = totals.1.1 + sum_list (map (λ c, c.1.1) counts) ∧
    totals'.1.2 = totals.1.2 + sum_list (map (λ c, c.1.2) counts) ∧
    totals'.2 = totals.2 + sum_list (map (λ c, c.2) counts).
Proof.
  induction url_files as [|url_file url_files IH];
    intros [[ts tf] tk] totals' s s'; simpl.
  - unfold ret. intros [= <- <-]. exists []. simpl.
    split; [constructor | lia].
  - unfold bind at 1.
    destruct (process_url_file ext url_file cookies s)
      as [[[[cs cf] ck]|e] s1] eqn:Hfile; [|done].
    intros (counts & Hall & H1 & H2 & H3)%IH. simpl in *.
    exists ((cs, cf, ck) :: counts). simpl.
    split; [constructor; eauto | lia].
Qed.

Lemma process_url_files_totals_witness :
  ∃ s', process_url_files demo_ok [lit "tech.txt"] (lit "z_c0=token")
          (0, 0, 0) demo_start = (Returns (1, 1, 1), s') ∧
        ∃ counts : list (nat * nat * nat),
          length counts = 1 ∧ 1 = 0 + sum_list (map (λ c, c.1.1) counts).
Proof.
  eexists. split; [by vm_compute|].
  edestruct (process_url_files_totals demo_ok [lit "tech.txt"]
               (lit "z_c0=token") (0, 0, 0) (1, 1, 1) demo_start)
    as (counts & Hall & H1 & _); [by vm_compute|].
  exists counts. split; [|exact H1].
  by rewrite <- (Forall2_length _ _ _ Hall).
Defined.

(** ** Running again, and starting *)

(** X21: once a directory the walk enters ([Dir]: one that can be listed
    and is not a symbolic link), whose name holds the identifier of a URL,
    lies below the output directory at any depth, [process_single_url]
    skips the URL: the outcome is "Article already exists" and no call is
    made. *)
Theorem process_single_url_rerun_skips {W} (ext : Externals W)
    (url cookies output_dir article_id : str) (s : state W)
    (es : list entry) (name : str) (sub : list entry) :
  get_article_id url = Some article_id → article_id ≠ [] →
  listing ext (world s) output_dir = Some es →
  below es (Dir name sub) → contains article_id name = true →
  process_single_url ext url cookies output_dir s =
    (Returns (url, true, Some (lit "Article already exists")), s).
Proof.
  intros Hid Hne Hes Hbelow Hname.
  unfold process_single_url. rewrite Hid.
  destruct article_id as [|c article_id]; [done|].
  unfold bind at 1.
  rewrite (article_exists_true_for ext _ _ _ es Hes) by eauto. done.
Qed.

Lemma process_single_url_rerun_skips_witness :
  (get_article_id (lit "https://zhuanlan.zhihu.com/p/12345/edit")
     = Some (lit "12345") ∧
   below demo_tree (Dir (lit "2024-01-01_title_12345") [File (lit "index.md")])) ∧
  process_single_url demo_ok (lit "https://zhuanlan.zhihu.com/p/12345/edit")
    (lit "z_c0=token") demo_output_dir demo_start =
    (Returns (lit "https://zhuanlan.zhihu.com/p/12345/edit", true,
              Some (lit "Article already exists")), demo_start).
Proof.
  assert (Hb : below demo_tree
                 (Dir (lit "2024-01-01_title_12345") [File (lit "index.md")])).
  { apply below_here. apply elem_of_cons. by left. }
  split; [split; [by vm_compute | exact Hb]|].
  apply (process_single_url_rerun_skips demo_ok _ _ _ (lit "12345") _
           demo_tree (lit "2024-01-01_title_12345") [File (lit "index.md")]);
    [by vm_compute | done | by vm_compute | exact Hb | by vm_compute].
Defined.

(** X22: [main] returns only when, after the directories are set up, the
    cookies file exists, its text is not empty after trimming, and at least
    one URL list is found. *)
Theorem main_returns_configured {W} (ext : Externals W) (s s' : state W) :
  main ext s = (Returns tt, s') →
  ∃ s1,
    (setup_directories ext ;; cleanup_temp_files ext) s = (Returns tt, s1) ∧
    path_exists ext (world s1) COOKIES_FILE = true ∧
    (∃ text, read_text ext (world s1) COOKIES_FILE = Returns text ∧
             strip text ≠ []) ∧
    glob_txt ext (world s1) ≠ [].
Proof.
  intros Hmain. unfold main in Hmain. unfold bind at 1 in Hmain.
  destruct (setup_directories ext s) as [[[]|e] s0] eqn:Hsetup; [|done].
  unfold bind at 1 in Hmain.
  destruct (cleanup_temp_files ext s0) as [[[]|e] s1] eqn:Hclean; [|done].
  exists s1. split.
  { unfold bind. rewrite Hsetup. exact Hclean. }
  unfold bind at 1, read_cookies_from_file, bind at 1, observe in Hmain.
  unfold get_url_files, observe, sys_exit, raise, ret in Hmain.
  destruct (path_exists ext (world s1) COOKIES_FILE); simpl in Hmain; [|done].
  unfold bind at 1 in Hmain.
  destruct (read_text ext (world s1) COOKIES_FILE) as [text|e]; [|done].
  case_bool_decide as Hcookies; [done|].
  unfold bind at 1 in Hmain. case_bool_decide as Hfiles; [done|]. eauto.
Qed.

Lemma main_returns_configured_witness :
  ∃ s', main demo_ok demo_start = (Returns tt, s') ∧
        glob_txt demo_ok (world demo_start) ≠ [].
Proof.
  eexists. split; [by vm_compute|].
  edestruct (main_returns_configured demo_ok demo_start)
    as (s1 & Hstart & _ & _ & Hglob); [by vm_compute|].
  vm_compute in Hstart. injection Hstart as <-. exact Hglob.
Defined.
